(** * A* Path Finder (src/app.py): route-finding engine

    A shallow embedding of [find_path] and of the traffic block of
    [src/app.py], with the properties of the route-finding engine stated
    and proved over it.

    Numbers.  Python [int] is [Z].  The numbers of lines 74-91 and
    256-261 are modelled twice.  [find_path_f64] and
    [fuel_consumption_f64] evaluate them as Python does, in IEEE binary64
    ([spec_float] of the Standard Library, every operation rounded to
    nearest, ties to even); what is stated about the distance, the time
    and the fuel that are reported is proved there.  [find_path],
    [total_distance_of] and [fuel_consumption] evaluate the same lines
    over exact rationals [Q], with [round] as round-half-to-even; they
    carry the properties that do not turn on the rounding of a double:
    the search, the route, signs and orderings, the page.  Where an
    operation on doubles rounds, the two can differ in the last digit
    reported: one segment of 5.125 km in walk mode gives 61 minutes in
    doubles and 62 over the rationals.

    Library calls.  [app.py] delegates to networkx ([has_path],
    [astar_path]), osmnx ([nearest_nodes]) and geopy
    ([distance.distance]).  None of them is under [src/]; each is either
    a parameter of the development (geopy's distance) or a definition
    whose comment says what it is modelled from. *)

From Stdlib Require Import QArith Qabs Qround Qminmax Lqa ZArith Lia SpecFloat.
From stdpp Require Import gmap strings list fin_maps.

Local Open Scope Z_scope.
#[local] Set Warnings "-clear-no-such-hyp".

(** ** Python numerics *)

(** [round(x)] on a float: nearest integer, ties to the even one. *)
Definition py_round (x : Q) : Z :=
  let fl := Qfloor x in
  match (x - inject_Z fl ?= 1 # 2)%Q with
  | Lt => fl
  | Gt => fl + 1
  | Eq => if Z.even fl then fl else fl + 1
  end.

(** [round(x, ndigits)] on a float, for [ndigits >= 0]. *)
Definition py_round_ndigits (x : Q) (ndigits : nat) : Q :=
  let scale := inject_Z (10 ^ Z.of_nat ndigits) in
  Qred (inject_Z (py_round (x * scale)) / scale).

(** [x in l] for a list of ints. *)
Definition py_in (x : Z) (l : list Z) : bool := existsb (Z.eqb x) l.

(** ** Traffic block (app.py, lines 232-246) *)

(** What [time.localtime()] returns, as far as the clock goes. *)
Record struct_time := { tm_hour : Z; tm_min : Z; tm_sec : Z }.

(** The part of the process environment the script reads: the local
    wall clock. *)
Record World := { localtime : struct_time }.

Record traffic_info := {
  traffic_status : string;
  traffic_factor : Q;
  adjusted_time : Z
}.

(** Lines 236-246, with [current_hour] already bound. *)
Definition traffic_adjust (time_minutes : Z) (current_hour : Z) : traffic_info :=
  let '(status, factor) :=
    if py_in current_hour [7; 8; 9; 16; 17; 18] then ("Heavy"%string, 1.5%Q)
    else if py_in current_hour [10; 11; 14; 15; 19; 20] then ("Moderate"%string, 1.2%Q)
    else ("Light"%string, 1.0%Q) in
  {| traffic_status := status;
     traffic_factor := factor;
     adjusted_time := py_round (inject_Z time_minutes * factor) |}.

(** Lines 232-246 as the script runs them: the hour is not an argument,
    line 233 reads it from the wall clock of the process. *)
Definition traffic_block (w : World) (time_minutes : Z) : traffic_info :=
  let current_hour := tm_hour (localtime w) in
  traffic_adjust time_minutes current_hour.

(** ** Errors raised by the engine *)

Inductive error :=
| EmptyGraph     (* nearest_nodes on a graph without nodes *)
| InvalidNode    (* a search endpoint that is not a node of the graph *)
| NoPathFound    (* the open set ran empty before the goal was reached *)
| KeyError       (* a dict or node-attribute lookup that misses *)
| OutOfFuel.     (* the step budget of the search model ran out *)

Inductive result (A : Type) :=
| Ok (a : A)
| Raise (e : error).

Arguments Ok {A} a.
Arguments Raise {A} e.

#[global] Instance result_ret : MRet result := fun A a => Ok a.

#[global] Instance result_bind : MBind result := fun A B f m =>
  match m with Ok a => f a | Raise e => Raise e end.

Definition from_option {A} (e : error) (o : option A) : result A :=
  match o with Some a => Ok a | None => Raise e end.

(** ** The street graph

    What [find_path] reads of the networkx [MultiDiGraph] that osmnx
    builds: per node the attributes [y] (latitude) and [x] (longitude),
    per edge its end points and its [length] attribute.  Parallel edges
    are separate entries of [edges]. *)

Record NodeData := { node_y : Q; node_x : Q }.

Record Edge := { edge_u : Z; edge_v : Z; edge_length : Q }.

Record Graph := { nodes : gmap Z NodeData; edges : list Edge }.

(** A coordinate is a [(lat, lon)] pair. *)
Definition Coordinate : Type := Q * Q.

Definition coordinate_of (d : NodeData) : Coordinate := (node_y d, node_x d).

(** The data-model invariant: edges join nodes of the graph and lengths
    are not negative. *)
Definition wf_graph (G : Graph) : Prop :=
  forall e, e ∈ edges G ->
    edge_u e ∈ dom (nodes G) /\ edge_v e ∈ dom (nodes G) /\ (0 <= edge_length e)%Q.

Definition out_edges (G : Graph) (u : Z) : list Edge :=
  filter (fun e => edge_u e = u) (edges G).

(** Edge sequences: [is_path G u es t] says that [es] leads from [u] to
    [t] along edges of [G]; the empty sequence joins a node to itself. *)
Fixpoint is_path (G : Graph) (u : Z) (es : list Edge) (t : Z) : Prop :=
  match es with
  | [] => u = t
  | e :: es' => e ∈ edges G /\ edge_u e = u /\ is_path G (edge_v e) es' t
  end.

Definition path_nodes (u : Z) (es : list Edge) : list Z := u :: map edge_v es.

Definition path_weight (weight : Edge -> Q) (es : list Edge) : Q :=
  fold_right (fun e acc => (weight e + acc)%Q) 0%Q es.

(** The weight networkx gives a node pair of a multigraph: the least
    weight among the parallel edges. *)
Definition link_weight (G : Graph) (weight : Edge -> Q) (u v : Z) : option Q :=
  match filter (fun e => edge_u e = u /\ edge_v e = v) (edges G) with
  | [] => None
  | e :: es => Some (fold_left Qmin (map weight es) (weight e))
  end.

(** Summed edge weights of a node path. *)
Fixpoint route_weight (G : Graph) (weight : Edge -> Q) (p : list Z) : option Q :=
  match p with
  | u :: (v :: _) as rest =>
      match link_weight G weight u v, route_weight G weight rest with
      | Some w, Some c => Some (w + c)%Q
      | _, _ => None
      end
  | _ => Some 0%Q
  end.

(** ** Choosing the least element of a non-empty list *)

Definition pick {A} (before : A -> A -> bool) (x : A) (l : list A) : A :=
  fold_left (fun best c => if before c best then c else best) l x.

(** ** PathSearch *)

Section PathSearch.

Variable G : Graph.
Variable weight : Edge -> Q.
Variable heuristic : Z -> Z -> Q.
Variables source target : Z.

Record search_state := {
  open_set : list Z;
  closed_set : gset Z;
  g_score : gmap Z Q;
  came_from : gmap Z Z
}.

Definition g_of (st : search_state) (v : Z) : Q := default 0%Q (g_score st !! v).

Definition f_of (st : search_state) (v : Z) : Q := (g_of st v + heuristic v target)%Q.

(** Order of the open set: lower f first; on equal f the higher g; then
    the lower node id. *)
Definition before (st : search_state) (a b : Z) : bool :=
  match (f_of st a ?= f_of st b)%Q with
  | Lt => true
  | Gt => false
  | Eq => match (g_of st b ?= g_of st a)%Q with
          | Lt => true
          | Gt => false
          | Eq => a <? b
          end
  end.

Definition pop_open (st : search_state) : option Z :=
  match open_set st with
  | [] => None
  | v :: rest => Some (pick (before st) v rest)
  end.

(** Relaxation of one edge leaving the node [u] under expansion. *)
Definition relax (u : Z) (st : search_state) (e : Edge) : search_state :=
  let v := edge_v e in
  if decide (v ∈ closed_set st) then st else
  let tentative := (g_of st u + weight e)%Q in
  let keep := match g_score st !! v with
              | Some gv => Qle_bool gv tentative
              | None => false
              end in
  if keep then st else
  {| open_set := if decide (v ∈ open_set st) then open_set st else v :: open_set st;
     closed_set := closed_set st;
     g_score := <[v := tentative]> (g_score st);
     came_from := <[v := u]> (came_from st) |}.

Definition close_node (u : Z) (st : search_state) : search_state :=
  {| open_set := filter (fun v => v <> u) (open_set st);
     closed_set := {[u]} ∪ closed_set st;
     g_score := g_score st;
     came_from := came_from st |}.

Definition expand (u : Z) (st : search_state) : search_state :=
  fold_left (relax u) (out_edges G u) (close_node u st).

(** Predecessor links followed from [v] back to the start: [v], its
    predecessor, ..., [source]. *)
Fixpoint walk_back (fuel : nat) (cf : gmap Z Z) (v : Z) : option (list Z) :=
  if decide (v = source) then Some [v] else
  match fuel with
  | O => None
  | S k => match cf !! v with
           | None => None
           | Some u => cons v <$> walk_back k cf u
           end
  end.

Fixpoint search_loop (fuel : nat) (st : search_state) : result (list Z) :=
  match fuel with
  | O => Raise OutOfFuel
  | S k =>
      match pop_open st with
      | None => Raise NoPathFound
      | Some u =>
          if decide (u = target) then
            match walk_back (size (nodes G)) (came_from st) u with
            | Some back => Ok (rev back)
            | None => Raise OutOfFuel
            end
          else search_loop k (expand u st)
      end
  end.

Definition initial_state : search_state :=
  {| open_set := [source];
     closed_set := ∅;
     g_score := {[source := 0%Q]};
     came_from := ∅ |}.

(** Modelled from the spec: the search that networkx's [astar_path] and
    [shortest_path] run is not under [src/].  This is PathSearch of
    section 4.3: open set ordered by [f = g + h], closed set, recorded
    predecessors, [NoPathFound] when the open set runs empty,
    [InvalidNode] for an end point outside the graph.  Every expansion
    closes one more node, so one step per node and one more suffice. *)
Definition path_search : result (list Z) :=
  if decide (source ∈ dom (nodes G) /\ target ∈ dom (nodes G))
  then search_loop (S (size (nodes G))) initial_state
  else Raise InvalidNode.

(** *** What the search maintains *)

(** [backtrace cf v l]: [l] is [v], its recorded predecessor, and so on
    back to the start. *)
Inductive backtrace (cf : gmap Z Z) : Z -> list Z -> Prop :=
| backtrace_source : backtrace cf source [source]
| backtrace_step v u l :
    v <> source -> cf !! v = Some u -> backtrace cf u l ->
    backtrace cf v (v :: l).

(** The invariant of the search loop.  [relaxed] tells which edges out of
    closed nodes have been relaxed already: all of them between two
    expansions, some of those of the node under expansion during one. *)
Record search_inv (relaxed : Edge -> Prop) (st : search_state) : Prop := {
  inv_open : forall v, v ∈ open_set st ->
    (v ∉ closed_set st) /\ is_Some (g_score st !! v);
  inv_scored : forall v, is_Some (g_score st !! v) ->
    (v ∈ open_set st \/ v ∈ closed_set st) /\ v ∈ dom (nodes G);
  inv_source : st = initial_state \/ source ∈ closed_set st;
  inv_target : target ∉ closed_set st;
  inv_relaxed : forall e, e ∈ edges G -> edge_u e ∈ closed_set st -> relaxed e ->
    exists dv, g_score st !! edge_v e = Some dv /\
               (dv <= g_of st (edge_u e) + weight e)%Q;
  inv_closed : forall u, u ∈ closed_set st ->
    is_Some (g_score st !! u) /\
    exists es, is_path G source es u /\
      (path_weight weight es == g_of st u)%Q /\
      backtrace (came_from st) u (rev (path_nodes source es)) /\
      (forall x, x ∈ path_nodes source es -> x ∈ closed_set st) /\
      (length es < size (closed_set st))%nat;
  inv_optimal : forall u es, u ∈ closed_set st -> is_path G source es u ->
    (g_of st u <= path_weight weight es)%Q;
  inv_link : forall v, v ∈ open_set st -> v <> source ->
    exists e, e ∈ edges G /\ edge_v e = v /\ edge_u e ∈ closed_set st /\
      came_from st !! v = Some (edge_u e) /\
      (g_of st v == g_of st (edge_u e) + weight e)%Q
}.

(** The heuristic is consistent: along an edge it drops by no more than
    the weight of the edge. *)
Definition consistent : Prop :=
  forall e, e ∈ edges G ->
    (heuristic (edge_u e) target <= weight e + heuristic (edge_v e) target)%Q.

(** What a run of the search is to deliver. *)
Definition search_post (r : result (list Z)) : Prop :=
  match r with
  | Ok p =>
      exists es, is_path G source es target /\ p = path_nodes source es /\
        forall es', is_path G source es' target ->
          (path_weight weight es <= path_weight weight es')%Q
  | Raise NoPathFound => forall es, ~ is_path G source es target
  | Raise InvalidNode => ~ (source ∈ dom (nodes G) /\ target ∈ dom (nodes G))
  | Raise _ => False
  end.

End PathSearch.

(** [heuristic=None] of networkx: the zero heuristic. *)
Definition no_heuristic : Z -> Z -> Q := fun _ _ => 0%Q.

Definition heuristic_or_default (heuristic : option (Z -> Z -> Q)) : Z -> Z -> Q :=
  match heuristic with Some h => h | None => no_heuristic end.

(** Modelled from the spec: [nx.astar_path(G, source, target,
    heuristic=None, weight=...)], which is not under [src/]; PathSearch
    with the heuristic and the edge weight the caller passes. *)
Definition astar_path (G : Graph) (source target : Z)
    (heuristic : option (Z -> Z -> Q)) (weight : Edge -> Q) : result (list Z) :=
  path_search G weight (heuristic_or_default heuristic) source target.

(** Modelled from the spec: [nx.shortest_path(G, source, target)] without
    a weight, which is not under [src/]: every edge counts 1. *)
Definition shortest_path (G : Graph) (source target : Z) : result (list Z) :=
  path_search G (fun _ => 1%Q) no_heuristic source target.

(** Modelled from the spec: [nx.has_path], which is not under [src/]; it
    tries [shortest_path] and answers [False] when that finds no path. *)
Definition has_path (G : Graph) (source target : Z) : result bool :=
  match shortest_path G source target with
  | Ok _ => Ok true
  | Raise NoPathFound => Ok false
  | Raise e => Raise e
  end.

(** ** Snapping and route building *)

Section Engine.

(** The metric of the nearest-node search, on [(lat, lon)] pairs. *)
Variable great_circle : Coordinate -> Coordinate -> Q.

(** [geopy.distance.distance(a, b).km]. *)
Variable geo_distance_km : Coordinate -> Coordinate -> Q.

(** Order of the candidates for a query point: nearer first, then the
    lower node id. *)
Definition nearer (p : Coordinate) (a b : Z * NodeData) : bool :=
  match (great_circle (coordinate_of a.2) p ?= great_circle (coordinate_of b.2) p)%Q with
  | Lt => true
  | Gt => false
  | Eq => a.1 <? b.1
  end.

(** Nearer, or as near and with an id that is not higher. *)
Definition not_farther (p : Coordinate) (a b : Z * NodeData) : Prop :=
  (great_circle (coordinate_of a.2) p < great_circle (coordinate_of b.2) p)%Q \/
  ((great_circle (coordinate_of a.2) p == great_circle (coordinate_of b.2) p)%Q /\
   a.1 <= b.1).

(** Modelled from the spec: [ox.nearest_nodes(G, X, Y)], which is not
    under [src/]; SpatialIndex.nearest of section 4.1 as a linear scan:
    the node that minimises the distance to [(Y, X)], ties broken by the
    lowest node id, [EmptyGraph] on a graph without nodes. *)
Definition nearest_nodes (G : Graph) (X Y : Q) : result Z :=
  match map_to_list (nodes G) with
  | [] => Raise EmptyGraph
  | n :: rest => Ok (pick (nearer (Y, X)) n rest).1
  end.

(** [(G.nodes[node]["y"], G.nodes[node]["x"]) for node in route] *)
Fixpoint node_coordinates (G : Graph) (route : list Z) : result (list Coordinate) :=
  match route with
  | [] => Ok []
  | node :: rest =>
      d ← from_option KeyError (nodes G !! node);
      cs ← node_coordinates G rest;
      mret (coordinate_of d :: cs)
  end.

(** One turn of the loop of lines 76-79, at index [i]. *)
Definition add_segment (route_coords : list Coordinate) (total : Q) (i : nat) : Q :=
  match route_coords !! (i - 1)%nat, route_coords !! i with
  | Some a, Some b => (total + geo_distance_km a b)%Q
  | _, _ => total
  end.

(** Lines 75-79: [for i in range(1, len(route_coords))], summed over the
    rationals; [total_distance_f64] is the same loop on doubles. *)
Definition total_distance_of (route_coords : list Coordinate) : Q :=
  fold_left (add_segment route_coords) (seq 1 (length route_coords - 1)) 0%Q.

(** Line 82. *)
Definition speeds : gmap string Z :=
  <["car" := 50]> (<["walk" := 5]> (<["bike" := 15]> ∅)).

(** The dictionary [find_path] returns. *)
Inductive find_path_dict :=
| Found (route : list Coordinate) (distance : Q) (time_minutes : Z)
| NotFound (error : string).

Definition success (r : find_path_dict) : bool :=
  match r with Found _ _ _ => true | NotFound _ => false end.

(** [find_path] (lines 61-95), with the numbers of lines 74-91 over the
    rationals; [find_path_f64] has them as doubles and takes the same
    route ([find_path_f64_route]). *)
Definition find_path (G : Graph) (start_coords goal_coords : Coordinate)
    (mode : string) : result find_path_dict :=
  start_node ← nearest_nodes G start_coords.2 start_coords.1;
  goal_node ← nearest_nodes G goal_coords.2 goal_coords.1;
  connected ← has_path G start_node goal_node;
  if (connected : bool) then
    route ← astar_path G start_node goal_node None edge_length;
    route_coords ← node_coordinates G route;
    let total_distance := total_distance_of route_coords in
    speed ← from_option KeyError (speeds !! mode);
    let time_hours := (total_distance / inject_Z speed)%Q in
    let time_minutes := (time_hours * 60)%Q in
    mret (Found route_coords (py_round_ndigits total_distance 2) (py_round time_minutes))
  else
    mret (NotFound "No path found between these points.").

(** Lines 256-261: the fuel estimate shown for car mode, computed from
    [result["distance"]]. *)
Definition fuel_consumption (r : find_path_dict) (mode : string) : option Q :=
  match r with
  | Found _ distance _ =>
      if decide (mode = "car"%string)
      then Some (py_round_ndigits (distance * 0.08) 2)
      else None
  | NotFound _ => None
  end.

(** The sum the route distance stands for: the distances between
    consecutive coordinates. *)
Fixpoint segment_sum (cs : list Coordinate) : Q :=
  match cs with
  | a :: (b :: _) as rest => (geo_distance_km a b + segment_sum rest)%Q
  | _ => 0%Q
  end.

End Engine.

(** ** Maps ([create_map], lines 99-121)

    A folium map as the data [create_map] puts into it: the centre and
    zoom level of [folium.Map] and the children added with [add_to], in
    the order they are added. *)

Inductive map_child :=
| Marker (location : Coordinate) (popup : string) (icon_color icon_name : string)
| PolyLine (locations : list Coordinate) (color : string) (weight : Z) (opacity : Q)
| AntPath (locations : list Coordinate) (color : string) (weight : Z).

Record folium_map := {
  map_location : Coordinate;
  map_zoom_start : Z;
  map_children : list map_child
}.

Definition folium_Map (location : Coordinate) (zoom_start : Z) : folium_map :=
  {| map_location := location; map_zoom_start := zoom_start; map_children := [] |}.

Definition add_to (c : map_child) (m : folium_map) : folium_map :=
  {| map_location := map_location m;
     map_zoom_start := map_zoom_start m;
     map_children := map_children m ++ [c] |}.

(** [if route_coords:] on an argument that is [None] or a list. *)
Definition py_truthy_list {A} (o : option (list A)) : bool :=
  match o with
  | Some (_ :: _) => true
  | _ => false
  end.

Definition create_map (start_coords goal_coords : Coordinate)
    (route_coords : option (list Coordinate)) : folium_map :=
  let center_lat := ((start_coords.1 + goal_coords.1) / 2)%Q in
  let center_lon := ((start_coords.2 + goal_coords.2) / 2)%Q in
  let m := folium_Map (center_lat, center_lon) 13 in
  let m := add_to (Marker start_coords "Start" "green" "play") m in
  let m := add_to (Marker goal_coords "Destination" "red" "flag") m in
  if py_truthy_list route_coords then
    let locations := default [] route_coords in
    let m := add_to (PolyLine locations "blue" 5 0.7) m in
    add_to (AntPath locations "blue" 5) m
  else m.

(** ** The page (lines 36-49 and 124-288)

    What the script puts on the page is a list of events, in the order of
    the calls.  Formatted text is kept as the values it is formatted
    from. *)

(** What [geocoder.geocode(query)] does. *)
Inductive geocode_outcome :=
| Located (address : string) (latitude longitude : Q)
| NotLocated
| GeocodeRaised (e : string).

(** What [load_graph(place, network_type)] does. *)
Inductive load_outcome :=
| Loaded (G : Graph)
| LoadRaised (e : string).

(** The dictionary [search_location] returns. *)
Record location_dict := { address : string; lat : Q; lon : Q }.

(** An exception that the [try] of line 196 catches. *)
Inductive caught_exception :=
| load_exception (e : string)
| engine_exception (e : error).

Inductive ui_event :=
| st_error (body : string)
| st_error_occurred (e : caught_exception)
| st_info (body : string)
| st_subheader (body : string)
| sidebar_success (body : string)
| sidebar_error (body : string)
| folium_static (m : folium_map) (width height : Z)
| route_details (distance : Q) (time_minutes : Z) (mode : string)
    (start_coords end_coords : Coordinate)
| traffic_details (status : string) (adjusted : Z)
| fuel_details (liters : Q).

(** A name of the script: not assigned yet, or assigned a value. *)
Inductive binding (A : Type) :=
| Unbound
| Bound (value : A).

Arguments Unbound {A}.
Arguments Bound {A} value.

(** An exception that leaves the script. *)
Inductive uncaught_exception :=
| NameError (name : string).

(** The values of the widgets of the sidebar. *)
Record widgets := {
  start_method : string;
  start_query : string;
  start_lat : Q;
  start_lon : Q;
  end_method : string;
  end_query : string;
  end_lat : Q;
  end_lon : Q;
  mode : string;
  place : string;
  find_path_button : bool
}.

Section Page.

Variable geocode : string -> geocode_outcome.
Variable load_graph : string -> string -> load_outcome.
Variable great_circle : Coordinate -> Coordinate -> Q.
Variable geo_distance_km : Coordinate -> Coordinate -> Q.

(** [search_location] (lines 36-49): the value returned and the error
    messages shown. *)
Definition search_location (query : string) : option location_dict * list ui_event :=
  if decide (query = ""%string) then (None, [])
  else
    match geocode query with
    | Located a la lo => (Some {| address := a; lat := la; lon := lo |}, [])
    | NotLocated => (None, [])
    | GeocodeRaised e =>
        (None, [st_error (String.append "Error searching for location: " e)])
    end.

(** Lines 128-151, and 153-174 for the destination: what the name
    [start_coords] gets bound to, and the messages of the sidebar. *)
Definition select_coords (method query : string) (lat_input lon_input : Q)
    : binding (option Coordinate) * list ui_event :=
  if decide (method = "Search by name"%string) then
    if decide (query = ""%string) then (Unbound, [])
    else
      let '(location, shown) := search_location query in
      match location with
      | Some l =>
          (Bound (Some (lat l, lon l)),
           shown ++ [sidebar_success (String.append "Found: " (address l))])
      | None =>
          (Bound None,
           shown ++ [sidebar_error "Location not found. Please try a different query."])
      end
  else (Bound (Some (lat_input, lon_input)), []).

(** Lines 205-261: the page of a successful result. *)
Definition route_view (w : World) (mode : string) (start_coords end_coords : Coordinate)
    (route : list Coordinate) (distance : Q) (time_minutes : Z) : list ui_event :=
  let traffic := traffic_block w time_minutes in
  [ st_subheader "📍 Route Map";
    folium_static (create_map start_coords end_coords (Some route)) 800 500;
    st_subheader "📊 Route Details";
    route_details distance time_minutes mode start_coords end_coords;
    st_subheader "🚦 Traffic Info";
    traffic_details (traffic_status traffic) (adjusted_time traffic) ] ++
  match fuel_consumption (Found route distance time_minutes) mode with
  | Some liters => [fuel_details liters]
  | None => []
  end.

(** Lines 196-273: the [try] block with its handler. *)
Definition query_view (w : World) (mode place : string)
    (start_coords end_coords : Coordinate) : list ui_event :=
  let network_type := if decide (mode = "car"%string) then "drive"%string
                      else "walk"%string in
  let failed e :=
    [ st_error_occurred e;
      st_info "Try a different location or check your internet connection." ] in
  match load_graph place network_type with
  | LoadRaised e => failed (load_exception e)
  | Loaded G =>
      match find_path great_circle geo_distance_km G start_coords end_coords mode with
      | Raise e => failed (engine_exception e)
      | Ok (Found route distance time_minutes) =>
          route_view w mode start_coords end_coords route distance time_minutes
      | Ok (NotFound error) =>
          [ st_error error;
            st_subheader "📍 Map";
            folium_static (create_map start_coords end_coords None) 1000 500 ]
      end
  end.

(** Lines 274-288: the [else] branch of line 194. *)
Definition idle_view (find_path_button : bool)
    (start_coords end_coords : binding (option Coordinate)) : list ui_event :=
  if negb find_path_button then
    st_info "👈 Enter your locations and click 'Find Path' to see the route." ::
    match start_coords, end_coords with
    | Bound sc, Bound ec =>
        match sc, ec with
        | Some s, Some e => [folium_static (create_map s e None) 1000 500]
        | _, _ => []
        end
    | _, _ => [folium_static (folium_Map (21.0285, 105.8542)%Q 13) 1000 500]
    end
  else [].

(** Lines 194-288.  The condition of line 194 is evaluated from left to
    right and stops at the first operand that is false; a name that was
    never assigned raises NameError when its turn comes. *)
Definition main_area (w : World) (i : widgets)
    (start_coords end_coords : binding (option Coordinate))
    : list ui_event * option uncaught_exception :=
  let idle := (idle_view (find_path_button i) start_coords end_coords, None) in
  if find_path_button i then
    match start_coords with
    | Unbound => ([], Some (NameError "start_coords"))
    | Bound None => idle
    | Bound (Some s) =>
        match end_coords with
        | Unbound => ([], Some (NameError "end_coords"))
        | Bound None => idle
        | Bound (Some e) =>
            if decide (place i = ""%string) then idle
            else (query_view w (mode i) (place i) s e, None)
        end
    end
  else idle.

(** Lines 124-288: the sidebar, then the main area. *)
Definition page (w : World) (i : widgets)
    : list ui_event * option uncaught_exception :=
  let '(start_coords, shown1) :=
    select_coords (start_method i) (start_query i) (start_lat i) (start_lon i) in
  let '(end_coords, shown2) :=
    select_coords (end_method i) (end_query i) (end_lat i) (end_lon i) in
  let '(shown3, raised) := main_area w i start_coords end_coords in
  (shown1 ++ shown2 ++ shown3, raised).

(** *** The three ways a point of the sidebar can turn out *)

(** The search box was chosen and left empty. *)
Definition search_empty (method query : string) : Prop :=
  method = "Search by name"%string /\ query = ""%string.

(** The search box was chosen and filled in, and the search gave no
    location: the geocoder found nothing or raised. *)
Definition search_failed (method query : string) : Prop :=
  method = "Search by name"%string /\ query <> ""%string /\
  (geocode query = NotLocated \/ exists e, geocode query = GeocodeRaised e).

(** The point is known: typed in as coordinates, or found by the search. *)
Definition point_given (method query : string) (lat_input lon_input : Q)
    (c : Coordinate) : Prop :=
  (method <> "Search by name"%string /\ c = (lat_input, lon_input)) \/
  (method = "Search by name"%string /\ query <> ""%string /\
   exists a, geocode query = Located a c.1 c.2).

End Page.

(** ** IEEE doubles and Python numbers

    Lines 74-91 as Python evaluates them.  A Python [float] is an IEEE
    binary64 number: [spec_float] of the Standard Library with precision
    53 and exponent bound 1024, every operation rounded to nearest, ties
    to even.  A Python number is an [int] or a [float], and an operation
    on an [int] and a [float] converts the [int] first. *)

Definition b64_add : spec_float -> spec_float -> spec_float := SFadd 53 1024.

Definition b64_mul : spec_float -> spec_float -> spec_float := SFmul 53 1024.

Definition b64_div : spec_float -> spec_float -> spec_float := SFdiv 53 1024.

(** [float(n)] for an int. *)
Definition b64_of_Z (n : Z) : spec_float := binary_normalize 53 1024 n 0 false.

(** The double nearest to the fraction [p / q]. *)
Definition b64_of_ratio (p : Z) (q : positive) : spec_float :=
  match p with
  | Z0 => S754_zero false
  | Zpos m => b64_div (S754_finite false m 0) (S754_finite false q 0)
  | Zneg m => b64_div (S754_finite true m 0) (S754_finite false q 0)
  end.

(** The double a decimal literal denotes, such as [0.08]. *)
Definition b64_of_Q (x : Q) : spec_float := b64_of_ratio (Qnum x) (Qden x).

(** The exact value of a finite double. *)
Definition b64_to_Q (x : spec_float) : option Q :=
  match x with
  | S754_zero _ => Some 0%Q
  | S754_finite s m e =>
      let v := match e with
               | Zneg k => Qmake (Zpos m) (2 ^ k)%positive
               | _ => inject_Z (Zpos m * 2 ^ e)
               end in
      Some (if s then Qopp v else v)
  | S754_infinity _ | S754_nan => None
  end.

Definition b64_sign (x : spec_float) : bool :=
  match x with
  | S754_zero s | S754_infinity s | S754_finite s _ _ => s
  | S754_nan => false
  end.

Inductive py_num :=
| py_int (n : Z)
| py_float (x : spec_float).

(** Exceptions of the arithmetic, and those of the engine. *)
Inductive py_exception :=
| ZeroDivisionError
| ValueError
| OverflowError
| engine_error (e : error).

Inductive outcome (A : Type) :=
| Returns (a : A)
| Raises (e : py_exception).

Arguments Returns {A} a.
Arguments Raises {A} e.

#[global] Instance outcome_ret : MRet outcome := fun A a => Returns a.

#[global] Instance outcome_bind : MBind outcome := fun A B f m =>
  match m with Returns a => f a | Raises e => Raises e end.

Definition lift_result {A} (r : result A) : outcome A :=
  match r with Ok a => Returns a | Raise e => Raises (engine_error e) end.

Definition py_to_float (a : py_num) : spec_float :=
  match a with py_int n => b64_of_Z n | py_float x => x end.

(** [a + b] *)
Definition py_add (a b : py_num) : py_num :=
  match a, b with
  | py_int m, py_int n => py_int (m + n)
  | _, _ => py_float (b64_add (py_to_float a) (py_to_float b))
  end.

(** [a * b] *)
Definition py_mul (a b : py_num) : py_num :=
  match a, b with
  | py_int m, py_int n => py_int (m * n)
  | _, _ => py_float (b64_mul (py_to_float a) (py_to_float b))
  end.

Definition py_is_zero (a : py_num) : bool :=
  match a with
  | py_int n => n =? 0
  | py_float (S754_zero _) => true
  | py_float _ => false
  end.

(** [a / b]: true division, ZeroDivisionError for a zero divisor. *)
Definition py_truediv (a b : py_num) : outcome py_num :=
  if py_is_zero b then Raises ZeroDivisionError
  else Returns (py_float (b64_div (py_to_float a) (py_to_float b))).

(** [round(a)]: the nearest int, ties to even; a NaN raises ValueError
    and an infinity OverflowError. *)
Definition py_round_int (a : py_num) : outcome Z :=
  match a with
  | py_int n => Returns n
  | py_float x =>
      match b64_to_Q x with
      | Some q => Returns (py_round q)
      | None => Raises (match x with S754_nan => ValueError | _ => OverflowError end)
      end
  end.

(** [round(a, ndigits)] for [ndigits >= 0]: an int is returned as it is;
    a finite float is rounded, as an exact number and with ties to even,
    to [ndigits] decimal places, and the double nearest to that decimal
    is returned; a NaN or an infinity is returned as it is. *)
Definition py_round_to (a : py_num) (ndigits : nat) : py_num :=
  match a with
  | py_int n => py_int n
  | py_float x =>
      match b64_to_Q x with
      | Some q =>
          let scale := (10 ^ Pos.of_nat ndigits)%positive in
          let n := py_round (q * inject_Z (Zpos scale)) in
          py_float (if n =? 0 then S754_zero (b64_sign x) else b64_of_ratio n scale)
      | None => py_float x
      end
  end.

(** ** [find_path] with the numbers of lines 74-91 as doubles *)

(** The dictionary [find_path] returns, with the distance as a Python
    number. *)
Inductive find_path_dict_f64 :=
| Found_f64 (route : list Coordinate) (distance : py_num) (time_minutes : Z)
| NotFound_f64 (error : string).

Section EngineF64.

Variable great_circle : Coordinate -> Coordinate -> Q.

(** [geopy.distance.distance(a, b).km], a double. *)
Variable geo_distance_km : Coordinate -> Coordinate -> spec_float.

(** One turn of the loop of lines 76-79, at index [i]. *)
Definition add_segment_f64 (route_coords : list Coordinate) (total : py_num)
    (i : nat) : py_num :=
  match route_coords !! (i - 1)%nat, route_coords !! i with
  | Some a, Some b => py_add total (py_float (geo_distance_km a b))
  | _, _ => total
  end.

(** Lines 75-79: [total_distance = 0], then
    [for i in range(1, len(route_coords))]. *)
Definition total_distance_f64 (route_coords : list Coordinate) : py_num :=
  fold_left (add_segment_f64 route_coords) (seq 1 (length route_coords - 1))
            (py_int 0).

(** [find_path] (lines 61-95). *)
Definition find_path_f64 (G : Graph) (start_coords goal_coords : Coordinate)
    (mode : string) : outcome find_path_dict_f64 :=
  start_node ← lift_result (nearest_nodes great_circle G start_coords.2 start_coords.1);
  goal_node ← lift_result (nearest_nodes great_circle G goal_coords.2 goal_coords.1);
  connected ← lift_result (has_path G start_node goal_node);
  if (connected : bool) then
    route ← lift_result (astar_path G start_node goal_node None edge_length);
    route_coords ← lift_result (node_coordinates G route);
    let total_distance := total_distance_f64 route_coords in
    speed ← lift_result (from_option KeyError (speeds !! mode));
    time_hours ← py_truediv total_distance (py_int speed);
    let time_minutes := py_mul time_hours (py_int 60) in
    let distance := py_round_to total_distance 2 in
    rounded_minutes ← py_round_int time_minutes;
    mret (Found_f64 route_coords distance rounded_minutes)
  else
    mret (NotFound_f64 "No path found between these points.").

(** Lines 256-261: [round(result["distance"] * 0.08, 2)], for car mode. *)
Definition fuel_consumption_f64 (r : find_path_dict_f64) (mode : string)
    : option py_num :=
  match r with
  | Found_f64 _ distance _ =>
      if decide (mode = "car"%string)
      then Some (py_round_to (py_mul distance (py_float (b64_of_Q 0.08))) 2)
      else None
  | NotFound_f64 _ => None
  end.

(** The distances between consecutive coordinates, in route order. *)
Fixpoint segment_distances (cs : list Coordinate) : list py_num :=
  match cs with
  | a :: (b :: _) as rest => py_float (geo_distance_km a b) :: segment_distances rest
  | _ => []
  end.

End EngineF64.

(** ** Sample data for the examples *)

(** A stand-in for the two metrics where an example has to run the
    engine: taxicab distance at 100 km per degree. *)
Definition flat_km (a b : Coordinate) : Q :=
  (100 * (Qabs (a.1 - b.1) + Qabs (a.2 - b.2)))%Q.

(** The scenario of the spec: A(0,0), B(0,0.01), C(0,0.02) joined A-B and
    B-C by two-way streets of 1.1 km (stored in metres), a slower direct
    street A-C, and a node D that no street reaches. *)
Definition sample_graph : Graph :=
  {| nodes := <[1 := {| node_y := 0; node_x := 0 |}]>
             (<[2 := {| node_y := 0; node_x := 0.01 |}]>
             (<[3 := {| node_y := 0; node_x := 0.02 |}]>
             (<[4 := {| node_y := 5; node_x := 5 |}]> ∅)));
     edges := [ {| edge_u := 1; edge_v := 2; edge_length := 1100 |};
                {| edge_u := 2; edge_v := 1; edge_length := 1100 |};
                {| edge_u := 2; edge_v := 3; edge_length := 1100 |};
                {| edge_u := 3; edge_v := 2; edge_length := 1100 |};
                {| edge_u := 1; edge_v := 3; edge_length := 2500 |} ] |}.

(** Two nodes 0.186 km apart under [flat_km], joined by one street. *)
Definition short_graph : Graph :=
  {| nodes := <[1 := {| node_y := 0; node_x := 0 |}]>
             (<[2 := {| node_y := 0; node_x := 0.00186 |}]> ∅);
     edges := [ {| edge_u := 1; edge_v := 2; edge_length := 186 |} ] |}.

(** [flat_km] as the double that [geopy] would hand back. *)
Definition flat_km_f64 (a b : Coordinate) : spec_float := b64_of_Q (flat_km a b).

(** Two nodes 5.125 km apart under [flat_km], joined by one street. *)
Definition walk_graph : Graph :=
  {| nodes := <[1 := {| node_y := 0; node_x := 0 |}]>
             (<[2 := {| node_y := 0; node_x := 0.05125 |}]> ∅);
     edges := [ {| edge_u := 1; edge_v := 2; edge_length := 5125 |} ] |}.

(** A geocoder that knows two addresses, finds nothing for most queries
    and is out of service for one. *)
Definition sample_geocode (query : string) : geocode_outcome :=
  if decide (query = "A street"%string) then Located "A street, Hanoi" 0 0
  else if decide (query = "C street"%string) then Located "C street, Hanoi" 0 0.02
  else if decide (query = "timeout"%string) then GeocodeRaised "Service timed out"
  else NotLocated.

(** A loader that has one area and fails for the area "nowhere". *)
Definition sample_load_graph (place network_type : string) : load_outcome :=
  if decide (place = "nowhere"%string) then LoadRaised "no such place"
  else Loaded sample_graph.

(** A clock that shows 08:00. *)
Definition sample_morning : World :=
  {| localtime := {| tm_hour := 8; tm_min := 0; tm_sec := 0 |} |}.

(** The start found by the search box, the destination given as
    coordinates, with the button pressed or not. *)
Definition sample_widgets (query target_area : string) (goal_lat goal_lon : Q)
    (pressed : bool) : widgets :=
  {| start_method := "Search by name";
     start_query := query;
     start_lat := 21.0285;
     start_lon := 105.8542;
     end_method := "Use coordinates";
     end_query := "";
     end_lat := goal_lat;
     end_lon := goal_lon;
     mode := "car";
     place := target_area;
     find_path_button := pressed |}.

(** ** Facts about rounding *)

Section Rounding.
Local Open Scope Q_scope.

Lemma py_round_cases (x : Q) :
  let fl := Qfloor x in
  (x - inject_Z fl < 1 # 2 /\ py_round x = fl) \/
  (1 # 2 < x - inject_Z fl /\ py_round x = (fl + 1)%Z) \/
  (x - inject_Z fl == 1 # 2 /\ (py_round x = fl \/ py_round x = (fl + 1)%Z)).
Proof.
  intros fl. unfold py_round. fold fl.
  destruct (x - inject_Z fl ?= 1 # 2) eqn:E.
  - apply Qeq_alt in E. right; right. split; [exact E|].
    destruct (Z.even fl); auto.
  - apply Qlt_alt in E. left. auto.
  - apply Qgt_alt in E. right; left. auto.
Qed.

Lemma py_round_lower (x : Q) : inject_Z (py_round x) <= x + (1 # 2).
Proof.
  pose proof (Qfloor_le x) as Hl.
  destruct (py_round_cases x) as [[H ->]|[[H ->]|[H [-> | ->]]]];
    rewrite ?inject_Z_plus; try lra.
  - change (inject_Z 1) with 1. lra.
  - change (inject_Z 1) with 1. lra.
Qed.

Lemma py_round_upper (x : Q) : x - (1 # 2) <= inject_Z (py_round x).
Proof.
  pose proof (Qlt_floor x) as Hu. rewrite inject_Z_plus in Hu.
  change (inject_Z 1) with 1 in Hu.
  destruct (py_round_cases x) as [[H ->]|[[H ->]|[H [-> | ->]]]];
    rewrite ?inject_Z_plus; try change (inject_Z 1) with 1; lra.
Qed.

Lemma py_round_inject_Z (n : Z) : py_round (inject_Z n) = n.
Proof.
  unfold py_round. rewrite Qfloor_Z.
  assert (E : (inject_Z n - inject_Z n ?= 1 # 2) = Lt).
  { apply (proj1 (Qlt_alt _ _)). generalize (inject_Z n). intros q. lra. }
  now rewrite E.
Qed.

Lemma py_round_mono (x y : Q) : x <= y -> (py_round x <= py_round y)%Z.
Proof.
  intros Hxy.
  pose proof (Qfloor_resp_le _ _ Hxy) as Hfl.
  destruct (Z.eq_dec (Qfloor x) (Qfloor y)) as [E|NE].
  - unfold py_round. rewrite <- E.
    destruct (Qcompare_spec (x - inject_Z (Qfloor x)) (1 # 2)) as [Ex|Ex|Ex];
      destruct (Qcompare_spec (y - inject_Z (Qfloor x)) (1 # 2)) as [Ey|Ey|Ey];
      try destruct (Z.even (Qfloor x)); try lia; lra.
  - assert (Hlt : (Qfloor x + 1 <= Qfloor y)%Z) by lia.
    assert (Hx : (py_round x <= Qfloor x + 1)%Z).
    { destruct (py_round_cases x) as [[_ ->]|[[_ ->]|[_ [-> | ->]]]]; lia. }
    assert (Hy : (Qfloor y <= py_round y)%Z).
    { destruct (py_round_cases y) as [[_ ->]|[[_ ->]|[_ [-> | ->]]]]; lia. }
    lia.
Qed.

Lemma py_round_nonneg (x : Q) : 0 <= x -> (0 <= py_round x)%Z.
Proof.
  intros H. change 0%Z with (py_round (inject_Z 0)) at 1.
  - apply py_round_mono. exact H.
Qed.

Lemma py_round_comp (x y : Q) : x == y -> py_round x = py_round y.
Proof.
  intros E. apply Z.le_antisymm; apply py_round_mono; lra.
Qed.

End Rounding.

(** ** The least element that [pick] returns *)

Section Pick.

Context {A : Type} (before : A -> A -> bool) (le : A -> A -> Prop).
Hypothesis le_trans : forall a b c, le a b -> le b c -> le a c.
Hypothesis before_true : forall a b, before a b = true -> le a b.
Hypothesis before_false : forall a b, before a b = false -> le b a.

Lemma pick_elem (x : A) (l : list A) : pick before x l ∈ x :: l.
Proof.
  unfold pick. revert x. induction l as [|c l IH]; intros x; simpl.
  - apply list_elem_of_here.
  - destruct (before c x).
    + apply list_elem_of_further, IH.
    + destruct (proj1 (elem_of_cons _ _ _) (IH x)) as [E | Hin].
      * rewrite E. apply list_elem_of_here.
      * now do 2 apply list_elem_of_further.
Qed.

Lemma le_refl_of_before (a : A) : le a a.
Proof.
  destruct (before a a) eqn:E; [now apply before_true | now apply before_false].
Qed.

Lemma pick_below_start (x : A) (l : list A) : le (pick before x l) x.
Proof.
  unfold pick. revert x. induction l as [|c l IH]; intros x; simpl.
  - apply le_refl_of_before.
  - destruct (before c x) eqn:E.
    + eapply le_trans; [apply IH | now apply before_true].
    + apply IH.
Qed.

Lemma pick_least (x : A) (l : list A) (y : A) :
  y ∈ x :: l -> le (pick before x l) y.
Proof.
  revert x. induction l as [|c l IH]; intros x Hy.
  - apply elem_of_cons in Hy as [E | Hy]; [subst y; apply le_refl_of_before|].
    now apply elem_of_nil in Hy.
  - change (pick before x (c :: l))
      with (pick before (if before c x then c else x) l).
    apply elem_of_cons in Hy as [E | Hy].
    + subst y. destruct (before c x) eqn:Ec.
      * eapply le_trans; [apply pick_below_start | now apply before_true].
      * apply pick_below_start.
    + apply elem_of_cons in Hy as [E | Hy].
      * subst y. destruct (before c x) eqn:Ec.
        -- apply pick_below_start.
        -- eapply le_trans; [apply pick_below_start | now apply before_false].
      * apply IH. now apply list_elem_of_further.
Qed.

End Pick.

(** ** Snapping to the nearest node *)

Section Snapping.

Variable great_circle : Coordinate -> Coordinate -> Q.
Variable p : Coordinate.

Lemma not_farther_trans (a b c : Z * NodeData) :
  not_farther great_circle p a b -> not_farther great_circle p b c -> not_farther great_circle p a c.
Proof.
  unfold not_farther. intros [H1 | [H1 L1]] [H2 | [H2 L2]].
  - left. lra.
  - left. lra.
  - left. lra.
  - right. split; [lra | lia].
Qed.

Lemma nearer_true (a b : Z * NodeData) :
  nearer great_circle p a b = true -> not_farther great_circle p a b.
Proof.
  unfold nearer, not_farther.
  destruct (Qcompare_spec (great_circle (coordinate_of a.2) p)
                          (great_circle (coordinate_of b.2) p)) as [E|E|E];
    intros H; try discriminate H.
  - right. split; [exact E|]. apply Z.ltb_lt in H. lia.
  - left. exact E.
Qed.

Lemma nearer_false (a b : Z * NodeData) :
  nearer great_circle p a b = false -> not_farther great_circle p b a.
Proof.
  unfold nearer, not_farther.
  destruct (Qcompare_spec (great_circle (coordinate_of a.2) p)
                          (great_circle (coordinate_of b.2) p)) as [E|E|E];
    intros H; try discriminate H.
  - right. split; [lra|]. apply Z.ltb_ge in H. exact H.
  - left. exact E.
Qed.

End Snapping.

Lemma nearest_nodes_empty great_circle (G : Graph) (X Y : Q) :
  nodes G = ∅ -> nearest_nodes great_circle G X Y = Raise EmptyGraph.
Proof.
  intros H. unfold nearest_nodes. rewrite H, map_to_list_empty. reflexivity.
Qed.

Lemma nearest_nodes_found great_circle (G : Graph) (X Y : Q) (n : Z) :
  nearest_nodes great_circle G X Y = Ok n ->
  exists d, nodes G !! n = Some d /\
    forall m dm, nodes G !! m = Some dm ->
      not_farther great_circle (Y, X) (n, d) (m, dm).
Proof.
  unfold nearest_nodes.
  destruct (map_to_list (nodes G)) as [|c rest] eqn:E; [discriminate|].
  pose proof (pick_elem (nearer great_circle (Y, X)) c rest) as Hin.
  pose proof (pick_least (nearer great_circle (Y, X))
                (not_farther great_circle (Y, X))
                (not_farther_trans great_circle (Y, X))
                (nearer_true great_circle (Y, X))
                (nearer_false great_circle (Y, X)) c rest) as Hleast.
  destruct (pick (nearer great_circle (Y, X)) c rest) as [n' d].
  simpl. intros H. injection H as <-.
  exists d. rewrite <- E in Hin. apply elem_of_map_to_list in Hin.
  split; [exact Hin|].
  intros m dm Hm. apply elem_of_map_to_list in Hm. rewrite E in Hm.
  now apply Hleast.
Qed.

Lemma nearest_nodes_total great_circle (G : Graph) (X Y : Q) :
  nodes G <> ∅ -> exists n, nearest_nodes great_circle G X Y = Ok n.
Proof.
  intros H. unfold nearest_nodes.
  destruct (map_to_list (nodes G)) as [|c rest] eqn:E.
  - apply map_to_list_empty_iff in E. contradiction.
  - eauto.
Qed.

(** C8: on a graph with at least one node the snapping step returns a
    node of the graph, no node of the graph is strictly nearer to the
    query point, and among the nodes as near as the returned one it has
    the lowest id; on a graph without nodes it fails with EmptyGraph. *)
Theorem nearest_nodes_spec great_circle (G : Graph) (X Y : Q) :
  (nodes G <> ∅ ->
   exists n d, nearest_nodes great_circle G X Y = Ok n /\
     nodes G !! n = Some d /\
     forall m dm, nodes G !! m = Some dm ->
       ~ (great_circle (coordinate_of dm) (Y, X) <
          great_circle (coordinate_of d) (Y, X))%Q /\
       ((great_circle (coordinate_of dm) (Y, X) ==
         great_circle (coordinate_of d) (Y, X))%Q -> n <= m)) /\
  (nodes G = ∅ -> nearest_nodes great_circle G X Y = Raise EmptyGraph).
Proof.
  split; [|apply nearest_nodes_empty].
  intros Hne.
  destruct (nearest_nodes_total great_circle G X Y Hne) as [n Hn].
  destruct (nearest_nodes_found great_circle G X Y n Hn) as (d & Hd & Hmin).
  exists n, d. split; [exact Hn|]. split; [exact Hd|].
  intros m dm Hm. specialize (Hmin m dm Hm).
  unfold not_farther in Hmin. simpl in Hmin.
  destruct Hmin as [Hlt | [Heq Hle]]; split; intros H; try lra; lia.
Qed.

(** ** Edge sequences *)

Lemma is_path_app (G : Graph) (es1 es2 : list Edge) (u t : Z) :
  is_path G u (es1 ++ es2) t <->
  exists m, is_path G u es1 m /\ is_path G m es2 t.
Proof.
  revert u. induction es1 as [|e es1 IH]; intros u; simpl.
  - split.
    + intros H. exists u. auto.
    + intros (m & -> & H). exact H.
  - rewrite IH. split.
    + intros (He & Hu & m & H1 & H2). exists m. auto.
    + intros (m & (He & Hu & H1) & H2). eauto.
Qed.

Lemma is_path_snoc (G : Graph) (es : list Edge) (e : Edge) (u t : Z) :
  is_path G u (es ++ [e]) t <->
  is_path G u es (edge_u e) /\ e ∈ edges G /\ edge_v e = t.
Proof.
  rewrite is_path_app. simpl. split.
  - intros (m & H1 & He & Hu & Hv). subst m. auto.
  - intros (H1 & He & Hv). exists (edge_u e). auto.
Qed.

Lemma path_weight_app (weight : Edge -> Q) (es1 es2 : list Edge) :
  (path_weight weight (es1 ++ es2) ==
   path_weight weight es1 + path_weight weight es2)%Q.
Proof.
  unfold path_weight. induction es1 as [|e es1 IH]; simpl.
  - lra.
  - lra.
Qed.

Lemma path_weight_snoc (weight : Edge -> Q) (es : list Edge) (e : Edge) :
  (path_weight weight (es ++ [e]) == path_weight weight es + weight e)%Q.
Proof. rewrite path_weight_app. unfold path_weight. simpl. lra. Qed.

Lemma path_nodes_snoc (u : Z) (es : list Edge) (e : Edge) :
  path_nodes u (es ++ [e]) = path_nodes u es ++ [edge_v e].
Proof. unfold path_nodes. now rewrite map_app. Qed.

Lemma path_nodes_last (G : Graph) (es : list Edge) (u t : Z) :
  is_path G u es t -> last (path_nodes u es) = Some t.
Proof.
  revert u. induction es as [|e es IH]; intros u; simpl.
  - now intros ->.
  - intros (_ & _ & H). specialize (IH _ H). unfold path_nodes in IH.
    simpl in IH. destruct (map edge_v es); exact IH.
Qed.

Lemma elem_of_rev {A} (x : A) (l : list A) : x ∈ rev l <-> x ∈ l.
Proof. rewrite !list_elem_of_In. symmetry. apply in_rev. Qed.

Lemma out_edges_spec (G : Graph) (u : Z) (e : Edge) :
  e ∈ out_edges G u <-> e ∈ edges G /\ edge_u e = u.
Proof. unfold out_edges. rewrite list_elem_of_filter. tauto. Qed.

(** ** The search invariant *)

Section SearchProofs.

Variable G : Graph.
Variable weight : Edge -> Q.
Variable heuristic : Z -> Z -> Q.
Variables source target : Z.

Hypothesis edges_in_graph : forall e, e ∈ edges G ->
  edge_u e ∈ dom (nodes G) /\ edge_v e ∈ dom (nodes G).
Hypothesis heuristic_consistent : consistent G weight heuristic target.

Local Abbreviation inv := (search_inv G weight source target).
Local Abbreviation W := (path_weight weight).
Local Abbreviation h := (fun v => heuristic v target).

Lemma heuristic_along (es : list Edge) (v x : Z) :
  is_path G v es x -> (h v <= W es + h x)%Q.
Proof.
  revert v. induction es as [|e es IH]; intros v; unfold path_weight; simpl.
  - intros ->. lra.
  - intros (He & Hu & Hp). specialize (IH _ Hp).
    pose proof (heuristic_consistent e He) as Hc. rewrite Hu in Hc.
    unfold path_weight in IH. lra.
Qed.

Lemma before_true (st : search_state) (a b : Z) :
  before heuristic target st a b = true ->
  (f_of heuristic target st a <= f_of heuristic target st b)%Q.
Proof.
  unfold before.
  destruct (Qcompare_spec (f_of heuristic target st a) (f_of heuristic target st b));
    intros Hb; try discriminate Hb; lra.
Qed.

Lemma before_false (st : search_state) (a b : Z) :
  before heuristic target st a b = false ->
  (f_of heuristic target st b <= f_of heuristic target st a)%Q.
Proof.
  unfold before.
  destruct (Qcompare_spec (f_of heuristic target st a) (f_of heuristic target st b));
    intros Hb; try discriminate Hb; lra.
Qed.

Lemma pop_open_some (st : search_state) (u : Z) :
  pop_open heuristic target st = Some u ->
  u ∈ open_set st /\
  forall v, v ∈ open_set st ->
    (f_of heuristic target st u <= f_of heuristic target st v)%Q.
Proof.
  unfold pop_open. destruct (open_set st) as [|x l]; [discriminate|].
  intros H. injection H as <-. split.
  - apply pick_elem.
  - intros v Hv.
    apply (pick_least (before heuristic target st)
             (fun a b => (f_of heuristic target st a <= f_of heuristic target st b)%Q)).
    + intros a b c Hab Hbc. lra.
    + apply before_true.
    + apply before_false.
    + exact Hv.
Qed.

Lemma pop_open_none (st : search_state) :
  pop_open heuristic target st = None -> open_set st = [].
Proof.
  unfold pop_open. destruct (open_set st); [reflexivity | discriminate].
Qed.

Lemma g_of_lookup (st : search_state) (v : Z) (d : Q) :
  g_score st !! v = Some d -> g_of st v = d.
Proof. unfold g_of. now intros ->. Qed.

(** Every path from the start to a node that is not closed crosses the
    open set, at a node whose score is at most the weight of the path up
    to it. *)
Lemma frontier (st : search_state) (es : list Edge) (x : Z) :
  inv (fun _ => True) st ->
  is_path G source es x -> x ∉ closed_set st ->
  exists v es1 es2,
    es = es1 ++ es2 /\ v ∈ open_set st /\
    is_path G source es1 v /\ is_path G v es2 x /\
    (g_of st v <= W es1)%Q.
Proof.
  intros Hinv. revert x.
  induction es as [|e es IH] using rev_ind; intros x Hp Hx.
  - simpl in Hp. subst x.
    destruct (inv_source _ _ _ _ _ _ Hinv) as [-> | Hs]; [|contradiction].
    exists source, [], []. simpl. repeat split; try reflexivity.
    + apply list_elem_of_here.
    + unfold g_of, path_weight. simpl. rewrite lookup_singleton_eq. simpl. lra.
  - apply is_path_snoc in Hp as (Hp & He & Hv).
    destruct (decide (edge_u e ∈ closed_set st)) as [Hy | Hy].
    + destruct (inv_relaxed _ _ _ _ _ _ Hinv e He Hy I) as (dv & Hdv & Hle).
      rewrite Hv in Hdv.
      assert (Hopen : x ∈ open_set st).
      { destruct (inv_scored _ _ _ _ _ _ Hinv x) as [[H | H] _]; eauto.
        contradiction. }
      pose proof (inv_optimal _ _ _ _ _ _ Hinv _ _ Hy Hp) as Hopt.
      exists x, (es ++ [e]), []. rewrite app_nil_r.
      repeat split; auto.
      * apply is_path_snoc. auto.
      * rewrite (g_of_lookup _ _ _ Hdv), path_weight_snoc. lra.
    + destruct (IH _ Hp Hy) as (v & es1 & es2 & -> & Hvo & H1 & H2 & Hg).
      exists v, es1, (es2 ++ [e]). rewrite app_assoc.
      repeat split; auto.
      apply is_path_snoc. auto.
Qed.

(** The node the open set yields carries the weight of a lightest path
    to it. *)
Lemma popped_optimal (st : search_state) (u : Z) (es : list Edge) :
  inv (fun _ => True) st ->
  pop_open heuristic target st = Some u ->
  is_path G source es u ->
  (g_of st u <= W es)%Q.
Proof.
  intros Hinv Hpop Hp.
  destruct (pop_open_some _ _ Hpop) as [Hu Hmin].
  destruct (inv_open _ _ _ _ _ _ Hinv u Hu) as [Hnc _].
  destruct (frontier st es u Hinv Hp Hnc) as (v & es1 & es2 & -> & Hv & H1 & H2 & Hg).
  specialize (Hmin v Hv). unfold f_of in Hmin.
  pose proof (heuristic_along _ _ _ H2) as Hh. simpl in Hh.
  rewrite path_weight_app. lra.
Qed.

Lemma inv_weaken (P Q : Edge -> Prop) (st : search_state) :
  (forall e, e ∈ edges G -> Q e -> P e) -> inv P st -> inv Q st.
Proof.
  intros HPQ [H1 H2 H3 H4 H5 H6 H7 H8].
  constructor; auto.
Qed.

Lemma inv_closed_nonempty (P : Edge -> Prop) (st : search_state) (u : Z) :
  inv P st -> u ∈ closed_set st -> source ∈ closed_set st.
Proof.
  intros Hinv Hu. destruct (inv_source _ _ _ _ _ _ Hinv) as [-> | Hs]; [|exact Hs].
  simpl in Hu. set_solver.
Qed.

Lemma backtrace_insert (cf : gmap Z Z) (v u c : Z) (l : list Z) :
  backtrace source cf c l -> v ∉ l -> backtrace source (<[v := u]> cf) c l.
Proof.
  induction 1 as [|c c' l Hc Hcf Hb IH]; intros Hv.
  - constructor.
  - apply not_elem_of_cons in Hv as [Hne Hv].
    econstructor; eauto. now rewrite lookup_insert_ne.
Qed.

(** Moving the popped node from the open to the closed set. *)
Lemma close_node_inv (st : search_state) (u : Z) :
  inv (fun _ => True) st ->
  pop_open heuristic target st = Some u ->
  u <> target ->
  inv (fun e => edge_u e <> u) (close_node u st).
Proof.
  intros Hinv Hpop Hut.
  destruct (pop_open_some _ _ Hpop) as [Hu _].
  destruct (inv_open _ _ _ _ _ _ Hinv u Hu) as [Hunc Hug].
  assert (Hsize : size ({[u]} ∪ closed_set st) = S (size (closed_set st))).
  { rewrite size_union by set_solver. now rewrite size_singleton. }
  constructor; cbn [close_node open_set closed_set g_score came_from].
  - intros v Hv. apply list_elem_of_filter in Hv as [Hne Hv].
    destruct (inv_open _ _ _ _ _ _ Hinv v Hv) as [Hc Hg].
    split; [set_solver | exact Hg].
  - intros v Hv.
    destruct (inv_scored _ _ _ _ _ _ Hinv v Hv) as [Hoc Hd].
    split; [|exact Hd].
    destruct (decide (v = u)) as [-> | Hne]; [right; set_solver|].
    destruct Hoc as [Ho | Hc]; [left | right; set_solver].
    apply list_elem_of_filter. auto.
  - right. destruct (inv_source _ _ _ _ _ _ Hinv) as [E | Hs]; [|set_solver].
    rewrite E in Hu. simpl in Hu. apply list_elem_of_singleton in Hu. set_solver.
  - pose proof (inv_target _ _ _ _ _ _ Hinv). set_solver.
  - intros e He Hc Hne.
    apply (inv_relaxed _ _ _ _ _ _ Hinv e He); [set_solver | exact I].
  - intros c Hc.
    destruct (decide (c = u)) as [-> | Hcu].
    + split; [exact Hug|].
      destruct (decide (u = source)) as [-> | Hus].
      * destruct (inv_source _ _ _ _ _ _ Hinv) as [E | Hs]; [|contradiction].
        assert (Hg0 : g_of st source = 0%Q).
        { rewrite E. unfold g_of. simpl. now rewrite lookup_singleton_eq. }
        exists []. simpl. repeat split.
        -- unfold path_weight. simpl. change (g_of (close_node source st) source)
             with (g_of st source). rewrite Hg0. lra.
        -- constructor.
        -- intros x Hx. apply list_elem_of_singleton in Hx. set_solver.
        -- lia.
      * destruct (inv_link _ _ _ _ _ _ Hinv u Hu Hus)
          as (e & He & Hv & Hc0 & Hcf & Hg).
        destruct (inv_closed _ _ _ _ _ _ Hinv _ Hc0)
          as (_ & es & Hp & Hw & Hb & Hin & Hlen).
        exists (es ++ [e]). repeat split.
        -- apply is_path_snoc. auto.
        -- rewrite path_weight_snoc.
           change (g_of (close_node u st) u) with (g_of st u). lra.
        -- rewrite path_nodes_snoc, rev_unit, Hv.
           now apply (backtrace_step source _ u (edge_u e)).
        -- intros x. rewrite path_nodes_snoc, elem_of_app, list_elem_of_singleton.
           intros [Hx | ->]; [specialize (Hin x Hx)|]; set_solver.
        -- rewrite length_app. simpl. lia.
    + assert (Hc' : c ∈ closed_set st) by set_solver.
      destruct (inv_closed _ _ _ _ _ _ Hinv _ Hc')
        as (Hg & es & Hp & Hw & Hb & Hin & Hlen).
      split; [exact Hg|]. exists es. repeat split; auto.
      * intros x Hx. specialize (Hin x Hx). set_solver.
      * lia.
  - intros c es Hc Hp.
    change (g_of (close_node u st) c) with (g_of st c).
    destruct (decide (c = u)) as [-> | Hcu].
    + now apply popped_optimal.
    + apply (inv_optimal _ _ _ _ _ _ Hinv); [set_solver | exact Hp].
  - intros v Hv Hvs. apply list_elem_of_filter in Hv as [Hne Hv].
    destruct (inv_link _ _ _ _ _ _ Hinv v Hv Hvs) as (e & He & Hev & Hc & Hcf & Hg).
    exists e. repeat split; auto. set_solver.
Qed.

Lemma elem_of_add_open (v x : Z) (l : list Z) :
  x ∈ (if decide (v ∈ l) then l else v :: l) <-> x = v \/ x ∈ l.
Proof.
  destruct (decide (v ∈ l)) as [Hv | Hv].
  - split; [auto|]. intros [-> | H]; auto.
  - apply elem_of_cons.
Qed.

(** Relaxing one edge out of the node under expansion. *)
Lemma relax_inv (P : Edge -> Prop) (st : search_state) (u : Z) (e : Edge) :
  inv P st -> u ∈ closed_set st -> e ∈ edges G -> edge_u e = u ->
  inv (fun e' => P e' \/ e' = e) (relax weight u st e).
Proof.
  intros Hinv Hu He Heu.
  pose proof (inv_closed_nonempty _ _ _ Hinv Hu) as Hs.
  unfold relax.
  destruct (decide (edge_v e ∈ closed_set st)) as [Hvc | Hvc].
  { destruct Hinv as [H1 H2 H3 H4 H5 H6 H7 H8]. constructor; auto.
    intros e' He' Hc' [HP | ->]; [now apply H5|].
    destruct (H6 _ Hvc) as ([dv Hdv] & _).
    exists dv. split; [exact Hdv|].
    destruct (H6 _ Hu) as (_ & es & Hp & Hw & _).
    assert (Hp' : is_path G source (es ++ [e]) (edge_v e)).
    { apply is_path_snoc. rewrite Heu. auto. }
    pose proof (H7 (edge_v e) (es ++ [e]) Hvc Hp') as Hopt.
    rewrite path_weight_snoc, (g_of_lookup _ _ _ Hdv) in Hopt.
    rewrite Heu. lra. }
  set (tent := (g_of st u + weight e)%Q).
  set (v := edge_v e) in *.
  destruct (match g_score st !! v with
            | Some gv => Qle_bool gv tent
            | None => false
            end) eqn:Ek.
  { destruct (g_score st !! v) as [gv|] eqn:Eg; [|discriminate Ek].
    apply Qle_bool_iff in Ek.
    destruct Hinv as [H1 H2 H3 H4 H5 H6 H7 H8]. constructor; auto.
    intros e' He' Hc' [HP | ->]; [now apply H5|].
    exists gv. fold v. rewrite Heu. auto. }
  assert (Hlt : forall dv, g_score st !! v = Some dv -> (tent < dv)%Q).
  { intros dv Hdv. rewrite Hdv in Ek. apply Qnot_le_lt. intros Hle.
    apply Qle_bool_iff in Hle. congruence. }
  clear Ek.
  assert (Hcv : forall c, c ∈ closed_set st -> v <> c).
  { intros c Hc ->. contradiction. }
  match goal with |- inv _ ?s => set (st' := s) end.
  assert (Hgo : forall c, v <> c -> g_of st' c = g_of st c).
  { intros c Hc. unfold g_of, st'. simpl. now rewrite lookup_insert_ne. }
  assert (Hgv : g_of st' v = tent).
  { unfold g_of, st'. simpl. now rewrite lookup_insert_eq. }
  constructor; cbn [st' open_set closed_set g_score came_from].
  - intros x Hx. destruct (decide (v = x)) as [<- | Hne].
    + split; [exact Hvc|]. rewrite lookup_insert_eq. eauto.
    + apply elem_of_add_open in Hx as [-> | Hx]; [congruence|].
      rewrite lookup_insert_ne by exact Hne.
      apply (inv_open _ _ _ _ _ _ Hinv x Hx).
  - intros x Hx. destruct (decide (v = x)) as [<- | Hne].
    + split; [left; apply elem_of_add_open; auto|].
      apply (edges_in_graph e He).
    + rewrite lookup_insert_ne in Hx by exact Hne.
      destruct (inv_scored _ _ _ _ _ _ Hinv x Hx) as [[Ho | Hc] Hd];
        split; auto.
      left. apply elem_of_add_open. auto.
  - right. exact Hs.
  - apply (inv_target _ _ _ _ _ _ Hinv).
  - intros e' He' Hc' HP.
    rewrite (Hgo (edge_u e')) by (now apply Hcv).
    destruct (decide (v = edge_v e')) as [Ev | Ev].
    + rewrite <- Ev, lookup_insert_eq. exists tent. split; [reflexivity|].
      destruct HP as [HP | ->].
      * destruct (inv_relaxed _ _ _ _ _ _ Hinv e' He' Hc' HP) as (dv & Hdv & Hle).
        rewrite <- Ev in Hdv. specialize (Hlt dv Hdv). lra.
      * rewrite Heu. unfold tent. lra.
    + rewrite lookup_insert_ne by exact Ev.
      destruct HP as [HP | ->]; [|now destruct Ev].
      apply (inv_relaxed _ _ _ _ _ _ Hinv e' He' Hc' HP).
  - intros c Hc.
    destruct (inv_closed _ _ _ _ _ _ Hinv c Hc) as (Hg & es & Hp & Hw & Hb & Hin & Hlen).
    split; [rewrite lookup_insert_ne by (now apply Hcv); exact Hg|].
    exists es. repeat split; auto.
    + rewrite Hgo by (now apply Hcv). exact Hw.
    + apply backtrace_insert; [exact Hb|].
      intros Hx. apply elem_of_rev, Hin in Hx. contradiction.
  - intros c es Hc Hp. rewrite Hgo by (now apply Hcv).
    now apply (inv_optimal _ _ _ _ _ _ Hinv).
  - intros x Hx Hxs. destruct (decide (v = x)) as [<- | Hne].
    + exists e. rewrite Heu. repeat split; auto.
      * now rewrite lookup_insert_eq.
      * rewrite Hgv, (Hgo u) by (now apply Hcv). unfold tent. lra.
    + apply elem_of_add_open in Hx as [-> | Hx]; [congruence|].
      destruct (inv_link _ _ _ _ _ _ Hinv x Hx Hxs) as (e' & He' & Hev & Hc & Hcf & Hg).
      exists e'. repeat split; auto.
      * now rewrite lookup_insert_ne.
      * rewrite (Hgo x) by exact Hne.
        rewrite (Hgo (edge_u e')) by (now apply Hcv). exact Hg.
Qed.

Lemma relax_closed (st : search_state) (u : Z) (e : Edge) :
  closed_set (relax weight u st e) = closed_set st.
Proof.
  unfold relax. destruct (decide (edge_v e ∈ closed_set st)); [reflexivity|].
  destruct (match g_score st !! edge_v e with
            | Some gv => Qle_bool gv (g_of st u + weight e)
            | None => false
            end); reflexivity.
Qed.

Lemma relax_all_inv (u : Z) (l done : list Edge) (st : search_state) :
  inv (fun e => edge_u e <> u \/ e ∈ done) st ->
  u ∈ closed_set st ->
  (forall e, e ∈ l -> e ∈ edges G /\ edge_u e = u) ->
  inv (fun e => edge_u e <> u \/ e ∈ done ++ l) (fold_left (relax weight u) l st) /\
  closed_set (fold_left (relax weight u) l st) = closed_set st.
Proof.
  revert done st. induction l as [|e l IH]; intros done st Hinv Hu Hl; simpl.
  - rewrite app_nil_r. auto.
  - destruct (Hl e (list_elem_of_here _ _)) as [He Heu].
    pose proof (relax_inv _ st u e Hinv Hu He Heu) as Hstep.
    apply (inv_weaken _ (fun e' => edge_u e' <> u \/ e' ∈ done ++ [e])) in Hstep.
    2:{ intros e' _ [H | H]; [auto|].
        apply elem_of_app in H as [H | H]; [auto|].
        apply list_elem_of_singleton in H. auto. }
    destruct (IH (done ++ [e]) (relax weight u st e) Hstep) as [Hi Hc].
    + now rewrite relax_closed.
    + intros e' He'. apply Hl. now apply list_elem_of_further.
    + rewrite <- app_assoc in Hi. simpl in Hi. split; [exact Hi|].
      now rewrite Hc, relax_closed.
Qed.

(** One expansion keeps the invariant and closes the expanded node. *)
Lemma expand_inv (st : search_state) (u : Z) :
  inv (fun _ => True) st ->
  pop_open heuristic target st = Some u ->
  u <> target ->
  inv (fun _ => True) (expand G weight u st) /\
  closed_set (expand G weight u st) = {[u]} ∪ closed_set st.
Proof.
  intros Hinv Hpop Hut. unfold expand.
  pose proof (close_node_inv st u Hinv Hpop Hut) as Hc.
  apply (inv_weaken _ (fun e => edge_u e <> u \/ e ∈ [])) in Hc.
  2:{ intros e _ [H | H]; [exact H | now apply elem_of_nil in H]. }
  destruct (relax_all_inv u (out_edges G u) [] (close_node u st) Hc) as [Hi Hcl].
  - simpl. set_solver.
  - intros e. apply out_edges_spec.
  - split; [|exact Hcl].
    apply (inv_weaken (fun e => edge_u e <> u \/ e ∈ [] ++ out_edges G u)); [|exact Hi].
    intros e He _. simpl.
    destruct (decide (edge_u e = u)) as [E | E]; [right | now left].
    now apply out_edges_spec.
Qed.

Lemma walk_back_backtrace (cf : gmap Z Z) (v : Z) (l : list Z) (fuel : nat) :
  backtrace source cf v l -> (length l <= S fuel)%nat ->
  walk_back source fuel cf v = Some l.
Proof.
  intros Hb. revert fuel. induction Hb as [|v u l Hv Hcf Hb IH]; intros fuel Hlen.
  - destruct fuel; simpl; now rewrite decide_True.
  - simpl in Hlen. destruct fuel as [|k].
    + destruct Hb; simpl in Hlen; lia.
    + simpl. rewrite decide_False by exact Hv. rewrite Hcf.
      rewrite IH by lia. reflexivity.
Qed.

Lemma inv_closed_in_graph (P : Edge -> Prop) (st : search_state) (u : Z) :
  inv P st -> u ∈ closed_set st -> u ∈ dom (nodes G).
Proof.
  intros Hinv Hu.
  destruct (inv_closed _ _ _ _ _ _ Hinv u Hu) as [Hg _].
  apply (inv_scored _ _ _ _ _ _ Hinv u Hg).
Qed.

Lemma inv_closed_size (P : Edge -> Prop) (st : search_state) :
  inv P st -> (size (closed_set st) <= size (nodes G))%nat.
Proof.
  intros Hinv. rewrite <- size_dom. apply subseteq_size.
  intros u Hu. eapply inv_closed_in_graph; eauto.
Qed.

Lemma initial_inv :
  source ∈ dom (nodes G) -> inv (fun _ => True) (initial_state source).
Proof.
  intros Hs. constructor; simpl.
  - intros v Hv. apply list_elem_of_singleton in Hv as ->.
    split; [set_solver|]. rewrite lookup_singleton_eq. eauto.
  - intros v [d Hv]. apply lookup_singleton_Some in Hv as [<- _].
    split; [left; apply list_elem_of_here | exact Hs].
  - now left.
  - set_solver.
  - intros e _ Hc. set_solver.
  - intros u Hu. set_solver.
  - intros u es Hu. set_solver.
  - intros v Hv Hne. apply list_elem_of_singleton in Hv. contradiction.
Qed.

(** The path handed back when the goal is popped. *)
Lemma goal_popped (st : search_state) :
  inv (fun _ => True) st ->
  pop_open heuristic target st = Some target ->
  exists es, is_path G source es target /\
    walk_back source (size (nodes G)) (came_from st) target =
      Some (rev (path_nodes source es)) /\
    (W es == g_of st target)%Q.
Proof.
  intros Hinv Hpop.
  destruct (pop_open_some _ _ Hpop) as [Ht _].
  destruct (inv_open _ _ _ _ _ _ Hinv _ Ht) as [Hnc _].
  destruct (decide (target = source)) as [E | Hne].
  - exists []. rewrite E in *. repeat split.
    + destruct (size (nodes G)); simpl; now rewrite decide_True.
    + destruct (inv_source _ _ _ _ _ _ Hinv) as [-> | Hs]; [|contradiction].
      unfold path_weight, g_of. simpl. rewrite lookup_singleton_eq. simpl. lra.
  - destruct (inv_link _ _ _ _ _ _ Hinv _ Ht Hne) as (e & He & Hv & Hc & Hcf & Hg).
    destruct (inv_closed _ _ _ _ _ _ Hinv _ Hc) as (_ & es & Hp & Hw & Hb & _ & Hlen).
    pose proof (inv_closed_size _ _ Hinv) as Hsz.
    exists (es ++ [e]). repeat split.
    + apply is_path_snoc. auto.
    + rewrite path_nodes_snoc, rev_unit, Hv.
      apply walk_back_backtrace.
      * now apply (backtrace_step source _ target (edge_u e)).
      * cbn [length]. rewrite length_rev. unfold path_nodes. cbn [length].
        rewrite length_map. lia.
    + rewrite path_weight_snoc. lra.
Qed.

(** The loop, started in a state that satisfies the invariant and with
    a step for every node that is not closed yet and one more, delivers
    what the search is to deliver and never runs out of steps. *)
Lemma search_loop_spec (fuel : nat) (st : search_state) :
  inv (fun _ => True) st ->
  (size (nodes G) < size (closed_set st) + fuel)%nat ->
  search_post G weight source target
    (search_loop G weight heuristic source target fuel st).
Proof.
  revert st. induction fuel as [|k IH]; intros st Hinv Hfuel.
  - pose proof (inv_closed_size _ _ Hinv). lia.
  - simpl. destruct (pop_open heuristic target st) as [u|] eqn:Hpop.
    + destruct (decide (u = target)) as [-> | Hut].
      * destruct (goal_popped st Hinv Hpop) as (es & Hp & Hwb & Hw).
        rewrite Hwb, rev_involutive. unfold search_post. exists es.
        repeat split; auto.
        intros es' Hp'. pose proof (popped_optimal st _ es' Hinv Hpop Hp'). lra.
      * destruct (expand_inv st u Hinv Hpop Hut) as [Hinv' Hcl].
        apply IH; [exact Hinv'|].
        destruct (pop_open_some _ _ Hpop) as [Hu _].
        destruct (inv_open _ _ _ _ _ _ Hinv u Hu) as [Hnc _].
        rewrite Hcl, size_union by set_solver. rewrite size_singleton. lia.
    + simpl. intros es Hp.
      destruct (frontier st es target Hinv Hp (inv_target _ _ _ _ _ _ Hinv))
        as (v & _ & _ & _ & Hv & _).
      rewrite (pop_open_none _ Hpop) in Hv. now apply elem_of_nil in Hv.
Qed.

Theorem path_search_spec :
  search_post G weight source target
    (path_search G weight heuristic source target).
Proof.
  unfold path_search.
  destruct (decide (source ∈ dom (nodes G) /\ target ∈ dom (nodes G))) as [[Hs Ht] | Hn].
  - apply search_loop_spec; [now apply initial_inv|].
    cbn [initial_state closed_set]. lia.
  - simpl. exact Hn.
Qed.

End SearchProofs.

(** ** Weight of the node path *)

Lemma fold_Qmin_le_start (l : list Q) (a : Q) : (fold_left Qmin l a <= a)%Q.
Proof.
  revert a. induction l as [|x l IH]; intros a; simpl.
  - lra.
  - specialize (IH (Qmin a x)). pose proof (Q.le_min_l a x). lra.
Qed.

Lemma fold_Qmin_le_elem (l : list Q) (a x : Q) :
  x ∈ l -> (fold_left Qmin l a <= x)%Q.
Proof.
  revert a. induction l as [|y l IH]; intros a Hx; simpl.
  - now apply elem_of_nil in Hx.
  - apply elem_of_cons in Hx as [-> | Hx].
    + pose proof (fold_Qmin_le_start l (Qmin a y)).
      pose proof (Q.le_min_r a y). lra.
    + now apply IH.
Qed.

Lemma link_weight_le (G : Graph) (weight : Edge -> Q) (e : Edge) :
  e ∈ edges G ->
  exists w, link_weight G weight (edge_u e) (edge_v e) = Some w /\ (w <= weight e)%Q.
Proof.
  intros He. unfold link_weight.
  assert (Hin : e ∈ filter (fun e' => edge_u e' = edge_u e /\ edge_v e' = edge_v e)
                       (edges G)).
  { apply list_elem_of_filter. auto. }
  destruct (filter _ (edges G)) as [|e0 l]; [now apply elem_of_nil in Hin|].
  eexists. split; [reflexivity|].
  apply elem_of_cons in Hin as [-> | Hin].
  - apply fold_Qmin_le_start.
  - apply fold_Qmin_le_elem. apply list_elem_of_fmap. eauto.
Qed.

Lemma route_weight_le (G : Graph) (weight : Edge -> Q) (es : list Edge) (u t : Z) :
  is_path G u es t ->
  exists c, route_weight G weight (path_nodes u es) = Some c /\
            (c <= path_weight weight es)%Q.
Proof.
  revert u. induction es as [|e es IH]; intros u.
  - intros _. exists 0%Q. split; [reflexivity|]. unfold path_weight. simpl. lra.
  - intros (He & Hu & Hp). destruct (IH _ Hp) as (c & Hc & Hle).
    destruct (link_weight_le G weight e He) as (w & Hw & Hwle).
    exists (w + c)%Q. split.
    + unfold path_nodes in *. cbn [map route_weight].
      rewrite <- Hu, Hw. cbn [map route_weight] in Hc. rewrite Hc. reflexivity.
    + unfold path_weight in *. simpl. lra.
Qed.

(** ** The two searches of [find_path] *)

Lemma wf_graph_edges (G : Graph) :
  wf_graph G ->
  forall e, e ∈ edges G -> edge_u e ∈ dom (nodes G) /\ edge_v e ∈ dom (nodes G).
Proof. intros Hwf e He. destruct (Hwf e He) as (H1 & H2 & _). auto. Qed.

Lemma no_heuristic_consistent (G : Graph) (weight : Edge -> Q) (target : Z) :
  (forall e, e ∈ edges G -> (0 <= weight e)%Q) ->
  consistent G weight no_heuristic target.
Proof. intros H e He. unfold no_heuristic. specialize (H e He). lra. Qed.

Lemma astar_path_spec (G : Graph) (source target : Z) :
  wf_graph G ->
  search_post G edge_length source target
    (astar_path G source target None edge_length).
Proof.
  intros Hwf. unfold astar_path. apply path_search_spec.
  - now apply wf_graph_edges.
  - apply no_heuristic_consistent. intros e He. apply (Hwf e He).
Qed.

Lemma shortest_path_spec (G : Graph) (source target : Z) :
  wf_graph G ->
  search_post G (fun _ => 1%Q) source target (shortest_path G source target).
Proof.
  intros Hwf. unfold shortest_path. apply path_search_spec.
  - now apply wf_graph_edges.
  - apply no_heuristic_consistent. intros e He. lra.
Qed.

Lemma has_path_true (G : Graph) (source target : Z) :
  wf_graph G -> has_path G source target = Ok true ->
  exists es, is_path G source es target.
Proof.
  intros Hwf. unfold has_path.
  pose proof (shortest_path_spec G source target Hwf) as Hs.
  destruct (shortest_path G source target) as [p | []]; try discriminate.
  intros _. destruct Hs as (es & Hp & _). eauto.
Qed.

Lemma has_path_false (G : Graph) (source target : Z) :
  wf_graph G -> has_path G source target = Ok false ->
  forall es, ~ is_path G source es target.
Proof.
  intros Hwf. unfold has_path.
  pose proof (shortest_path_spec G source target Hwf) as Hs.
  destruct (shortest_path G source target) as [p | []]; try discriminate.
  intros _. exact Hs.
Qed.

Lemma has_path_total (G : Graph) (source target : Z) :
  wf_graph G -> source ∈ dom (nodes G) -> target ∈ dom (nodes G) ->
  exists b, has_path G source target = Ok b.
Proof.
  intros Hwf Hs Ht. unfold has_path.
  pose proof (shortest_path_spec G source target Hwf) as Hp.
  destruct (shortest_path G source target) as [p | []]; simpl in Hp;
    try contradiction; eauto.
  destruct Hp. auto.
Qed.

Lemma astar_path_total (G : Graph) (source target : Z) (es : list Edge) :
  wf_graph G -> source ∈ dom (nodes G) -> target ∈ dom (nodes G) ->
  is_path G source es target ->
  exists p, astar_path G source target None edge_length = Ok p.
Proof.
  intros Hwf Hs Ht Hes.
  pose proof (astar_path_spec G source target Hwf) as Hp.
  destruct (astar_path G source target None edge_length) as [p | []]; simpl in Hp;
    try contradiction; eauto.
  - destruct Hp. auto.
  - destruct (Hp es Hes).
Qed.

Lemma path_search_same_node (G : Graph) (weight : Edge -> Q)
    (heuristic : Z -> Z -> Q) (n : Z) :
  n ∈ dom (nodes G) -> path_search G weight heuristic n n = Ok [n].
Proof.
  intros Hn. unfold path_search. rewrite decide_True by auto.
  cbn [search_loop]. unfold pop_open, initial_state. cbn [open_set pick fold_left].
  rewrite decide_True by reflexivity. cbn [came_from].
  destruct (size (nodes G)); simpl; now rewrite decide_True.
Qed.

Lemma walk_back_nonempty (source : Z) (fuel : nat) (cf : gmap Z Z) (v : Z)
    (l : list Z) :
  walk_back source fuel cf v = Some l -> l <> [].
Proof.
  destruct fuel as [|k]; simpl.
  - destruct (decide (v = source)); [|discriminate]. now intros [= <-].
  - destruct (decide (v = source)); [now intros [= <-]|].
    destruct (cf !! v); [|discriminate].
    destruct (walk_back source k cf z); simpl; [|discriminate].
    now intros [= <-].
Qed.

Lemma search_loop_nonempty (G : Graph) (weight : Edge -> Q) (heuristic : Z -> Z -> Q)
    (source target : Z) (fuel : nat) (st : search_state) (p : list Z) :
  search_loop G weight heuristic source target fuel st = Ok p -> p <> [].
Proof.
  revert st. induction fuel as [|k IH]; intros st; simpl; [discriminate|].
  destruct (pop_open heuristic target st) as [u|]; [|discriminate].
  destruct (decide (u = target)); [|apply IH].
  destruct (walk_back source (size (nodes G)) (came_from st) u) as [back|] eqn:E;
    [|discriminate].
  intros [= <-]. apply walk_back_nonempty in E.
  intros H. apply (f_equal (@rev Z)) in H. rewrite rev_involutive in H.
  simpl in H. contradiction.
Qed.

Lemma astar_path_nonempty (G : Graph) (source target : Z)
    (heuristic : option (Z -> Z -> Q)) (weight : Edge -> Q) (p : list Z) :
  astar_path G source target heuristic weight = Ok p -> p <> [].
Proof.
  unfold astar_path, path_search.
  destruct (decide _); [|discriminate]. apply search_loop_nonempty.
Qed.

(** ** Route building *)

Lemma py_round_ndigits_comp (x y : Q) (n : nat) :
  (x == y)%Q -> py_round_ndigits x n = py_round_ndigits y n.
Proof.
  intros E. unfold py_round_ndigits. apply Qred_complete.
  rewrite (py_round_comp (x * inject_Z (10 ^ Z.of_nat n))
                         (y * inject_Z (10 ^ Z.of_nat n))); [reflexivity|].
  now rewrite E.
Qed.

Lemma py_round_ndigits_nonneg (x : Q) (n : nat) :
  (0 <= x)%Q -> (0 <= py_round_ndigits x n)%Q.
Proof.
  intros Hx. unfold py_round_ndigits. rewrite Qred_correct.
  assert (Hs : (0 < inject_Z (10 ^ Z.of_nat n))%Q).
  { change 0%Q with (inject_Z 0). rewrite <- Zlt_Qlt. lia. }
  apply Qle_shift_div_l; [exact Hs|]. rewrite Qmult_0_l.
  change 0%Q with (inject_Z 0). rewrite <- Zle_Qle.
  apply py_round_nonneg. apply Qmult_le_0_compat; lra.
Qed.

Section RouteProofs.

Variable geo_distance_km : Coordinate -> Coordinate -> Q.

Lemma total_distance_from (rest pre : list Coordinate) (a : Coordinate) (acc : Q) :
  (fold_left (add_segment geo_distance_km (pre ++ a :: rest))
     (seq (S (length pre)) (length rest)) acc ==
   acc + segment_sum geo_distance_km (a :: rest))%Q.
Proof.
  revert pre a acc. induction rest as [|b rest IH]; intros pre a acc.
  - simpl. lra.
  - cbn [length seq fold_left].
    assert (Hstep : add_segment geo_distance_km (pre ++ a :: b :: rest) acc
                      (S (length pre)) = (acc + geo_distance_km a b)%Q).
    { unfold add_segment.
      replace (S (length pre) - 1)%nat with (length pre) by lia.
      rewrite list_lookup_middle by reflexivity.
      replace (pre ++ a :: b :: rest) with ((pre ++ [a]) ++ b :: rest)
        by now rewrite <- app_assoc.
      rewrite list_lookup_middle by (rewrite length_app; simpl; lia).
      reflexivity. }
    rewrite Hstep.
    replace (pre ++ a :: b :: rest) with ((pre ++ [a]) ++ b :: rest)
      by now rewrite <- app_assoc.
    replace (S (S (length pre))) with (S (length (pre ++ [a])))
      by (rewrite length_app; simpl; lia).
    rewrite IH. cbn [segment_sum]. lra.
Qed.

(** The loop of lines 75-79 adds up the distances between consecutive
    coordinates. *)
Lemma total_distance_is_segment_sum (route_coords : list Coordinate) :
  (total_distance_of geo_distance_km route_coords ==
   segment_sum geo_distance_km route_coords)%Q.
Proof.
  unfold total_distance_of. destruct route_coords as [|a rest].
  - simpl. lra.
  - cbn [length]. replace (S (length rest) - 1)%nat with (length rest) by lia.
    rewrite (total_distance_from rest [] a 0). lra.
Qed.

Lemma segment_sum_nonneg (cs : list Coordinate) :
  (forall a b, 0 <= geo_distance_km a b)%Q ->
  (0 <= segment_sum geo_distance_km cs)%Q.
Proof.
  intros Hpos. induction cs as [|a [|b cs] IH]; simpl; try lra.
  specialize (Hpos a b). simpl in IH. lra.
Qed.

End RouteProofs.

Lemma speeds_lookup (mode : string) (speed : Z) :
  speeds !! mode = Some speed <->
  (mode = "car"%string /\ speed = 50) \/
  (mode = "walk"%string /\ speed = 5) \/
  (mode = "bike"%string /\ speed = 15).
Proof.
  unfold speeds. rewrite !lookup_insert_Some, lookup_empty. split.
  - intros [[<- <-] | [H1 [[<- <-] | [H2 [[<- <-] | [_ H]]]]]]; auto.
    discriminate H.
  - intros [[-> ->] | [[-> ->] | [-> ->]]]; auto 10.
Qed.

Lemma node_coordinates_spec (G : Graph) (route : list Z) (cs : list Coordinate) :
  node_coordinates G route = Ok cs ->
  Forall2 (fun node c => exists d, nodes G !! node = Some d /\ c = coordinate_of d)
          route cs.
Proof.
  revert cs. induction route as [|node route IH]; intros cs; simpl.
  - intros [= <-]. constructor.
  - destruct (nodes G !! node) as [d|] eqn:E; simpl; [|discriminate].
    destruct (node_coordinates G route) as [cs'|]; simpl; [|discriminate].
    intros [= <-]. constructor; eauto.
Qed.

Section EngineProofs.

Variable great_circle : Coordinate -> Coordinate -> Q.
Variable geo_distance_km : Coordinate -> Coordinate -> Q.

(** What a successful call went through. *)
Lemma find_path_found (G : Graph) (start_coords goal_coords : Coordinate)
    (mode : string) (route : list Coordinate) (d : Q) (t : Z) :
  find_path great_circle geo_distance_km G start_coords goal_coords mode =
    Ok (Found route d t) ->
  exists start_node goal_node p speed,
    nearest_nodes great_circle G start_coords.2 start_coords.1 = Ok start_node /\
    nearest_nodes great_circle G goal_coords.2 goal_coords.1 = Ok goal_node /\
    has_path G start_node goal_node = Ok true /\
    astar_path G start_node goal_node None edge_length = Ok p /\
    node_coordinates G p = Ok route /\
    speeds !! mode = Some speed /\
    d = py_round_ndigits (total_distance_of geo_distance_km route) 2 /\
    t = py_round (total_distance_of geo_distance_km route / inject_Z speed * 60).
Proof.
  unfold find_path.
  destruct (nearest_nodes great_circle G start_coords.2 start_coords.1)
    as [s|]; simpl; [|discriminate].
  destruct (nearest_nodes great_circle G goal_coords.2 goal_coords.1)
    as [g|]; simpl; [|discriminate].
  destruct (has_path G s g) as [[|]|] eqn:Eh; simpl; try discriminate.
  destruct (astar_path G s g None edge_length) as [p|] eqn:Ea; simpl;
    [|discriminate].
  destruct (node_coordinates G p) as [cs|] eqn:Ec; simpl; [|discriminate].
  destruct (speeds !! mode) as [speed|] eqn:Es; simpl; [|discriminate].
  intros [= <- <- <-]. exists s, g, p, speed. repeat split; auto.
Qed.

(** What a call that reports no path went through. *)
Lemma find_path_not_found (G : Graph) (start_coords goal_coords : Coordinate)
    (mode : string) (msg : string) :
  find_path great_circle geo_distance_km G start_coords goal_coords mode =
    Ok (NotFound msg) ->
  exists start_node goal_node,
    nearest_nodes great_circle G start_coords.2 start_coords.1 = Ok start_node /\
    nearest_nodes great_circle G goal_coords.2 goal_coords.1 = Ok goal_node /\
    has_path G start_node goal_node = Ok false.
Proof.
  unfold find_path.
  destruct (nearest_nodes great_circle G start_coords.2 start_coords.1)
    as [s|]; simpl; [|discriminate].
  destruct (nearest_nodes great_circle G goal_coords.2 goal_coords.1)
    as [g|]; simpl; [|discriminate].
  destruct (has_path G s g) as [[|]|] eqn:Eh; simpl; try discriminate.
  - destruct (astar_path G s g None edge_length) as [p|]; simpl; [|discriminate].
    destruct (node_coordinates G p) as [cs|]; simpl; [|discriminate].
    destruct (speeds !! mode) as [speed|]; simpl; discriminate.
  - intros _. exists s, g. auto.
Qed.

End EngineProofs.

(** ** The sample data *)

Lemma flat_km_nonneg (a b : Coordinate) : (0 <= flat_km a b)%Q.
Proof.
  unfold flat_km.
  pose proof (Qabs_nonneg (a.1 - b.1)). pose proof (Qabs_nonneg (a.2 - b.2)).
  lra.
Qed.

Lemma sample_graph_wf : wf_graph sample_graph.
Proof.
  intros e He. unfold sample_graph in He. cbn [edges] in He.
  repeat (apply elem_of_cons in He as [-> | He]);
    try (now apply elem_of_nil in He);
    (split; [|split]); try (apply elem_of_dom; vm_compute; eauto);
    vm_compute; discriminate.
Qed.

Lemma short_graph_wf : wf_graph short_graph.
Proof.
  intros e He. unfold short_graph in He. cbn [edges] in He.
  repeat (apply elem_of_cons in He as [-> | He]);
    try (now apply elem_of_nil in He);
    (split; [|split]); try (apply elem_of_dom; vm_compute; eauto);
    vm_compute; discriminate.
Qed.

(** ** The search step of [find_path] *)

(** C1: when the search of [find_path] succeeds, the node path it returns
    leads from the start node to the goal node and its summed edge
    weights (stored lengths) are at most the weight of any edge sequence
    from start to goal. *)
Theorem astar_path_optimal (G : Graph) (start_node goal_node : Z) (route : list Z) :
  wf_graph G ->
  astar_path G start_node goal_node None edge_length = Ok route ->
  head route = Some start_node /\ last route = Some goal_node /\
  exists c, route_weight G edge_length route = Some c /\
    forall es, is_path G start_node es goal_node ->
      (c <= path_weight edge_length es)%Q.
Proof.
  intros Hwf Hr.
  pose proof (astar_path_spec G start_node goal_node Hwf) as Hs.
  rewrite Hr in Hs. destruct Hs as (es & Hp & -> & Hopt).
  split; [reflexivity|]. split; [now apply (path_nodes_last G)|].
  destruct (route_weight_le G edge_length es _ _ Hp) as (c & Hc & Hle).
  exists c. split; [exact Hc|].
  intros es' Hp'. specialize (Hopt es' Hp'). lra.
Qed.

Lemma astar_path_optimal_witness :
  wf_graph sample_graph /\
  astar_path sample_graph 1 3 None edge_length = Ok [1; 2; 3] /\
  exists c, route_weight sample_graph edge_length [1; 2; 3] = Some c /\
    forall es, is_path sample_graph 1 es 3 ->
      (c <= path_weight edge_length es)%Q.
Proof.
  split; [exact sample_graph_wf|]. split; [vm_compute; reflexivity|].
  apply (astar_path_optimal sample_graph 1 3 [1; 2; 3] sample_graph_wf).
  vm_compute. reflexivity.
Defined.

Section Claims.

Variable great_circle : Coordinate -> Coordinate -> Q.
Variable geo_distance_km : Coordinate -> Coordinate -> Q.

Local Abbreviation find := (find_path great_circle geo_distance_km).
Local Abbreviation snap := (nearest_nodes great_circle).

Lemma snap_in_graph (G : Graph) (X Y : Q) (n : Z) :
  snap G X Y = Ok n -> n ∈ dom (nodes G).
Proof.
  intros H. destruct (nearest_nodes_found _ _ _ _ _ H) as (d & Hd & _).
  apply elem_of_dom. eauto.
Qed.

(** C2: with the end points snapped to [start_node] and [goal_node],
    [find_path] returns a failure result ([success] false) exactly when
    no edge sequence leads from [start_node] to [goal_node]. *)
Theorem find_path_fails_iff_unreachable (G : Graph)
    (start_coords goal_coords : Coordinate) (mode : string)
    (start_node goal_node : Z) :
  wf_graph G ->
  snap G start_coords.2 start_coords.1 = Ok start_node ->
  snap G goal_coords.2 goal_coords.1 = Ok goal_node ->
  (exists r, find G start_coords goal_coords mode = Ok r /\ success r = false) <->
  ~ exists es, is_path G start_node es goal_node.
Proof.
  intros Hwf Hs Hg. split.
  - intros (r & Hr & Hfail) (es & Hes).
    destruct r as [route d t | msg]; [discriminate Hfail|].
    destruct (find_path_not_found _ _ _ _ _ _ _ Hr) as (s & g & Hs' & Hg' & Hh).
    rewrite Hs in Hs'. rewrite Hg in Hg'.
    injection Hs' as <-. injection Hg' as <-.
    exact (has_path_false G _ _ Hwf Hh es Hes).
  - intros Hno.
    destruct (has_path_total G start_node goal_node Hwf
                (snap_in_graph _ _ _ _ Hs) (snap_in_graph _ _ _ _ Hg)) as [b Hb].
    destruct b.
    + destruct (has_path_true G _ _ Hwf Hb) as [es Hes].
      destruct Hno. eauto.
    + exists (NotFound "No path found between these points.").
      split; [|reflexivity].
      unfold find_path. rewrite Hs. simpl. rewrite Hg. simpl. rewrite Hb.
      reflexivity.
Qed.

(** C3: when start and goal snap to the same node, the search returns
    the single-element path and [find_path] succeeds with the one
    coordinate of that node, distance 0 and time 0. *)
Theorem find_path_same_node (G : Graph) (start_coords goal_coords : Coordinate)
    (mode : string) (n : Z) :
  snap G start_coords.2 start_coords.1 = Ok n ->
  snap G goal_coords.2 goal_coords.1 = Ok n ->
  is_Some (speeds !! mode) ->
  astar_path G n n None edge_length = Ok [n] /\
  exists d, nodes G !! n = Some d /\
    find G start_coords goal_coords mode = Ok (Found [coordinate_of d] 0 0) /\
    success (Found [coordinate_of d] 0 0) = true.
Proof.
  intros Hs Hg [speed Hspeed].
  pose proof (snap_in_graph _ _ _ _ Hs) as Hn.
  assert (Ha : astar_path G n n None edge_length = Ok [n]).
  { unfold astar_path. now apply path_search_same_node. }
  split; [exact Ha|].
  destruct (proj1 (elem_of_dom _ _) Hn) as [d Hd].
  exists d. split; [exact Hd|]. split; [|reflexivity].
  unfold find_path. rewrite Hs. simpl. rewrite Hg. simpl.
  unfold has_path, shortest_path. rewrite path_search_same_node by exact Hn.
  simpl. rewrite Ha. simpl. rewrite Hd. simpl. rewrite Hspeed. simpl.
  assert (E0 : total_distance_of geo_distance_km [coordinate_of d] = 0%Q)
    by reflexivity.
  rewrite E0. unfold mret, result_ret.
  replace (py_round (0 / inject_Z speed * 60)) with 0; [reflexivity|].
  symmetry. apply (py_round_comp _ 0). unfold Qdiv. ring.
Qed.



(** C9: a successful result carries a non-empty route, the coordinates
    of the nodes of the path found, in the order of the path, a distance
    that is not negative and a time that is not negative. *)
Theorem route_invariant (G : Graph) (start_coords goal_coords : Coordinate)
    (mode : string) (route : list Coordinate) (d : Q) (t : Z) :
  (forall a b, 0 <= geo_distance_km a b)%Q ->
  find G start_coords goal_coords mode = Ok (Found route d t) ->
  route <> [] /\
  (exists start_node goal_node p,
     snap G start_coords.2 start_coords.1 = Ok start_node /\
     snap G goal_coords.2 goal_coords.1 = Ok goal_node /\
     astar_path G start_node goal_node None edge_length = Ok p /\
     Forall2 (fun node c => exists nd, nodes G !! node = Some nd /\
                                       c = coordinate_of nd) p route) /\
  (0 <= d)%Q /\ 0 <= t.
Proof.
  intros Hpos H.
  destruct (find_path_found _ _ _ _ _ _ _ _ _ H)
    as (s & g & p & speed & Hs & Hg & _ & Ha & Hc & Hspeed & -> & ->).
  pose proof (node_coordinates_spec _ _ _ Hc) as Hf.
  pose proof (total_distance_is_segment_sum geo_distance_km route) as E.
  pose proof (segment_sum_nonneg geo_distance_km route Hpos) as Hsum.
  split; [|split; [|split]].
  - intros ->. apply Forall2_nil_inv_r in Hf.
    now apply astar_path_nonempty in Ha.
  - exists s, g, p. auto.
  - apply py_round_ndigits_nonneg. lra.
  - apply py_round_nonneg.
    assert (Hsp : (0 < inject_Z speed)%Q).
    { change 0%Q with (inject_Z 0). rewrite <- Zlt_Qlt.
      apply speeds_lookup in Hspeed. lia. }
    apply Qmult_le_0_compat; [|lra].
    apply Qle_shift_div_l; [exact Hsp|]. lra.
Qed.

End Claims.

(** ** The claims on the sample data *)

Lemma find_path_fails_iff_unreachable_witness :
  wf_graph sample_graph /\
  nearest_nodes flat_km sample_graph 0 0 = Ok 1 /\
  nearest_nodes flat_km sample_graph 5 5 = Ok 4 /\
  ((exists r, find_path flat_km flat_km sample_graph (0, 0)%Q (5, 5)%Q "car" = Ok r /\
              success r = false) <->
   ~ exists es, is_path sample_graph 1 es 4).
Proof.
  split; [exact sample_graph_wf|].
  split; [vm_compute; reflexivity|].
  split; [vm_compute; reflexivity|].
  apply (find_path_fails_iff_unreachable flat_km flat_km sample_graph
           (0, 0)%Q (5, 5)%Q "car" 1 4 sample_graph_wf);
    vm_compute; reflexivity.
Defined.

Lemma find_path_same_node_witness :
  nearest_nodes flat_km sample_graph 0.001 0 = Ok 1 /\
  nearest_nodes flat_km sample_graph 0.002 0 = Ok 1 /\
  is_Some (speeds !! "bike"%string) /\
  astar_path sample_graph 1 1 None edge_length = Ok [1] /\
  exists d, nodes sample_graph !! 1 = Some d /\
    find_path flat_km flat_km sample_graph (0, 0.001)%Q (0, 0.002)%Q "bike" =
      Ok (Found [coordinate_of d] 0 0) /\
    success (Found [coordinate_of d] 0 0) = true.
Proof.
  split; [vm_compute; reflexivity|].
  split; [vm_compute; reflexivity|].
  split; [exists 15; vm_compute; reflexivity|].
  apply (find_path_same_node flat_km flat_km sample_graph
           (0, 0.001)%Q (0, 0.002)%Q "bike" 1).
  - vm_compute; reflexivity.
  - vm_compute; reflexivity.
  - exists 15. vm_compute. reflexivity.
Defined.




Lemma route_invariant_witness :
  let route := [(0, 0); (0, 0.01); (0, 0.02)]%Q in
  (forall a b, 0 <= flat_km a b)%Q /\
  find_path flat_km flat_km sample_graph (0, 0)%Q (0, 0.02)%Q "walk" =
    Ok (Found route 2 24) /\
  route <> [] /\ (0 <= 2)%Q /\ 0 <= 24.
Proof.
  intros route. split; [exact flat_km_nonneg|].
  split; [vm_compute; reflexivity|].
  destruct (route_invariant flat_km flat_km sample_graph
              (0, 0)%Q (0, 0.02)%Q "walk" route 2 24 flat_km_nonneg)
    as (Hne & _ & Hd & Ht).
  - vm_compute. reflexivity.
  - split; [exact Hne|]. split; [exact Hd | exact Ht].
Defined.

Lemma nearest_nodes_spec_witness :
  nodes sample_graph <> ∅ /\
  exists n d, nearest_nodes flat_km sample_graph 0.001 0 = Ok n /\
    nodes sample_graph !! n = Some d.
Proof.
  assert (Hne : nodes sample_graph <> ∅).
  { intros H. apply (f_equal (fun m => m !! 1)) in H. vm_compute in H.
    discriminate H. }
  split; [exact Hne|].
  destruct (proj1 (nearest_nodes_spec flat_km sample_graph 0.001 0) Hne)
    as (n & d & Hn & Hd & _).
  eauto.
Defined.

(** ** The traffic block *)

Lemma py_in_spec (x : Z) (l : list Z) : py_in x l = true <-> x ∈ l.
Proof.
  unfold py_in. rewrite existsb_exists. split.
  - intros (y & Hy & E). apply Z.eqb_eq in E. subst y. now apply list_elem_of_In.
  - intros H. exists x. split; [now apply list_elem_of_In | apply Z.eqb_refl].
Qed.

Lemma rush_hours_apart (h : Z) :
  h ∈ [7; 8; 9; 16; 17; 18] -> h ∈ [10; 11; 14; 15; 19; 20] -> False.
Proof. set_unfold. lia. Qed.

Lemma traffic_adjust_factor (time_minutes current_hour : Z) :
  traffic_factor (traffic_adjust time_minutes current_hour) =
    if py_in current_hour [7; 8; 9; 16; 17; 18] then 1.5%Q
    else if py_in current_hour [10; 11; 14; 15; 19; 20] then 1.2%Q
    else 1.0%Q.
Proof.
  unfold traffic_adjust.
  destruct (py_in current_hour [7; 8; 9; 16; 17; 18]); [reflexivity|].
  destruct (py_in current_hour [10; 11; 14; 15; 19; 20]); reflexivity.
Qed.

Lemma traffic_adjust_time (time_minutes current_hour : Z) :
  adjusted_time (traffic_adjust time_minutes current_hour) =
    py_round (inject_Z time_minutes *
              traffic_factor (traffic_adjust time_minutes current_hour)).
Proof.
  unfold traffic_adjust.
  destruct (py_in current_hour [7; 8; 9; 16; 17; 18]); [reflexivity|].
  destruct (py_in current_hour [10; 11; 14; 15; 19; 20]); reflexivity.
Qed.

(** C6: the multiplier is 1.5 exactly for the hours 7, 8, 9, 16, 17, 18,
    1.2 exactly for 10, 11, 14, 15, 19, 20 and 1.0 for every other hour;
    the adjusted time is [round(base time * multiplier)]; at base time 100
    the hours 8, 11 and 2 give (1.5, 150), (1.2, 120) and (1.0, 100). *)
Theorem traffic_adjust_table (time_minutes current_hour : Z) :
  let r := traffic_adjust time_minutes current_hour in
  (traffic_factor r = 1.5%Q <-> current_hour ∈ [7; 8; 9; 16; 17; 18]) /\
  (traffic_factor r = 1.2%Q <-> current_hour ∈ [10; 11; 14; 15; 19; 20]) /\
  (traffic_factor r = 1.0%Q <->
     (current_hour ∉ [7; 8; 9; 16; 17; 18]) /\
     (current_hour ∉ [10; 11; 14; 15; 19; 20])) /\
  adjusted_time r = py_round (inject_Z time_minutes * traffic_factor r) /\
  (traffic_factor (traffic_adjust 100 8) = 1.5%Q /\
   adjusted_time (traffic_adjust 100 8) = 150) /\
  (traffic_factor (traffic_adjust 100 11) = 1.2%Q /\
   adjusted_time (traffic_adjust 100 11) = 120) /\
  (traffic_factor (traffic_adjust 100 2) = 1.0%Q /\
   adjusted_time (traffic_adjust 100 2) = 100).
Proof.
  intros r. subst r.
  split; [|split; [|split; [|split; [apply traffic_adjust_time|]]]].
  - rewrite traffic_adjust_factor.
    destruct (py_in current_hour [7; 8; 9; 16; 17; 18]) eqn:E1.
    + apply py_in_spec in E1. tauto.
    + assert (N1 : current_hour ∉ [7; 8; 9; 16; 17; 18]).
      { intros H. apply py_in_spec in H. congruence. }
      destruct (py_in current_hour [10; 11; 14; 15; 19; 20]);
        split; intros H; try discriminate H; contradiction.
  - rewrite traffic_adjust_factor.
    destruct (py_in current_hour [7; 8; 9; 16; 17; 18]) eqn:E1.
    + apply py_in_spec in E1. split; [discriminate|].
      intros H. destruct (rush_hours_apart _ E1 H).
    + destruct (py_in current_hour [10; 11; 14; 15; 19; 20]) eqn:E2.
      * apply py_in_spec in E2. tauto.
      * split; [discriminate|]. intros H. apply py_in_spec in H. congruence.
  - rewrite traffic_adjust_factor.
    destruct (py_in current_hour [7; 8; 9; 16; 17; 18]) eqn:E1.
    + apply py_in_spec in E1. split; [discriminate | tauto].
    + destruct (py_in current_hour [10; 11; 14; 15; 19; 20]) eqn:E2.
      * apply py_in_spec in E2. split; [discriminate | tauto].
      * split; [|reflexivity]. intros _.
        split; intros H; apply py_in_spec in H; congruence.
  - repeat split; vm_compute; reflexivity.
Qed.

(** C7, as the script has it: the hour is the one the block reads from
    the local wall clock, and the multiplier and the adjusted time are
    the table lookup for that hour and the base time; two runs whose
    clocks show the same hour give the same status, multiplier and
    adjusted time for the same base time, whatever minute and second the
    clocks show. *)
Theorem traffic_block_same_hour (w1 w2 : World) (time_minutes : Z) :
  tm_hour (localtime w1) = tm_hour (localtime w2) ->
  let h := tm_hour (localtime w1) in
  let factor := if py_in h [7; 8; 9; 16; 17; 18] then 1.5%Q
                else if py_in h [10; 11; 14; 15; 19; 20] then 1.2%Q
                else 1.0%Q in
  (traffic_factor (traffic_block w1 time_minutes) = factor /\
   adjusted_time (traffic_block w1 time_minutes) =
     py_round (inject_Z time_minutes * factor)) /\
  (traffic_factor (traffic_block w2 time_minutes) = factor /\
   adjusted_time (traffic_block w2 time_minutes) =
     py_round (inject_Z time_minutes * factor)) /\
  traffic_block w1 time_minutes = traffic_block w2 time_minutes.
Proof.
  intros H h factor.
  assert (Hblock : forall w, tm_hour (localtime w) = h ->
            traffic_factor (traffic_block w time_minutes) = factor /\
            adjusted_time (traffic_block w time_minutes) =
              py_round (inject_Z time_minutes * factor)).
  { intros w Hw. unfold traffic_block. rewrite Hw.
    pose proof (traffic_adjust_factor time_minutes h) as Hf. fold factor in Hf.
    split; [exact Hf|]. rewrite traffic_adjust_time, Hf. reflexivity. }
  split; [apply Hblock; reflexivity|].
  split; [apply Hblock; symmetry; exact H|].
  unfold traffic_block. rewrite H. reflexivity.
Qed.

Lemma traffic_block_same_hour_witness :
  let w1 := {| localtime := {| tm_hour := 8; tm_min := 5; tm_sec := 0 |} |} in
  let w2 := {| localtime := {| tm_hour := 8; tm_min := 40; tm_sec := 7 |} |} in
  tm_hour (localtime w1) = tm_hour (localtime w2) /\
  traffic_factor (traffic_block w1 100) = 1.5%Q /\
  adjusted_time (traffic_block w2 100) = 150 /\
  traffic_block w1 100 = traffic_block w2 100.
Proof.
  intros w1 w2. split; [reflexivity|].
  destruct (traffic_block_same_hour w1 w2 100 eq_refl) as ([Hf1 _] & [_ Ha2] & He).
  split; [exact Hf1|]. split; [exact Ha2 | exact He].
Defined.

(** C7, as stated, fails: the hour is not an input of the block.  The
    same base time gives different multipliers and adjusted times on two
    runs whose wall clocks differ. *)
Lemma traffic_block_reads_clock :
  let morning := {| localtime := {| tm_hour := 8; tm_min := 0; tm_sec := 0 |} |} in
  let night := {| localtime := {| tm_hour := 2; tm_min := 0; tm_sec := 0 |} |} in
  traffic_factor (traffic_block morning 100) = 1.5%Q /\
  adjusted_time (traffic_block morning 100) = 150 /\
  traffic_factor (traffic_block night 100) = 1.0%Q /\
  adjusted_time (traffic_block night 100) = 100 /\
  traffic_block morning 100 <> traffic_block night 100.
Proof.
  repeat split; try (vm_compute; reflexivity).
  intros H. apply (f_equal adjusted_time) in H. vm_compute in H. discriminate H.
Qed.

(** C10: the multiplier is one of 1.0, 1.2 and 1.5, hence at least 1,
    and for a base time that is not negative the adjusted time is not
    below the base time. *)
Theorem traffic_never_speeds_up (time_minutes current_hour : Z) :
  0 <= time_minutes ->
  let r := traffic_adjust time_minutes current_hour in
  (traffic_factor r = 1.0%Q \/ traffic_factor r = 1.2%Q \/ traffic_factor r = 1.5%Q) /\
  (1 <= traffic_factor r)%Q /\
  time_minutes <= adjusted_time r.
Proof.
  intros Hpos r. subst r.
  assert (Hf : traffic_factor (traffic_adjust time_minutes current_hour) = 1.0%Q \/
               traffic_factor (traffic_adjust time_minutes current_hour) = 1.2%Q \/
               traffic_factor (traffic_adjust time_minutes current_hour) = 1.5%Q).
  { rewrite traffic_adjust_factor.
    destruct (py_in current_hour [7; 8; 9; 16; 17; 18]); [auto|].
    destruct (py_in current_hour [10; 11; 14; 15; 19; 20]); auto. }
  assert (Hge : (1 <= traffic_factor (traffic_adjust time_minutes current_hour))%Q).
  { destruct Hf as [-> | [-> | ->]]; unfold Qle; simpl; lia. }
  split; [exact Hf|]. split; [exact Hge|].
  rewrite traffic_adjust_time.
  rewrite <- (py_round_inject_Z time_minutes) at 1.
  apply py_round_mono.
  assert (Ht : (0 <= inject_Z time_minutes)%Q).
  { change 0%Q with (inject_Z 0). rewrite <- Zle_Qle. exact Hpos. }
  nra.
Qed.

Lemma traffic_never_speeds_up_witness :
  0 <= 100 /\ 100 <= adjusted_time (traffic_adjust 100 8).
Proof.
  split; [lia|].
  apply (traffic_never_speeds_up 100 8). lia.
Defined.

(** ** More on the distance loop (lines 75-79) *)

Section DistanceLoop.

Variable geo_distance_km : Coordinate -> Coordinate -> Q.

Local Abbreviation total := (total_distance_of geo_distance_km).
Local Abbreviation segs := (segment_sum geo_distance_km).

Lemma segment_sum_snoc (cs : list Coordinate) (b c : Coordinate) :
  (segs ((cs ++ [b]) ++ [c]) == segs (cs ++ [b]) + geo_distance_km b c)%Q.
Proof.
  induction cs as [|a cs IH].
  - simpl. lra.
  - destruct cs as [|a' cs].
    + simpl. lra.
    + change (segs (((a :: a' :: cs) ++ [b]) ++ [c]))
        with (geo_distance_km a a' + segs (((a' :: cs) ++ [b]) ++ [c]))%Q.
      change (segs ((a :: a' :: cs) ++ [b]))
        with (geo_distance_km a a' + segs ((a' :: cs) ++ [b]))%Q.
      rewrite IH. lra.
Qed.


Lemma segment_sum_direct (cs : list Coordinate) (a b : Coordinate) :
  (forall x, geo_distance_km x x <= 0)%Q ->
  (forall x y z, geo_distance_km x z <= geo_distance_km x y + geo_distance_km y z)%Q ->
  head cs = Some a -> last cs = Some b ->
  (geo_distance_km a b <= segs cs)%Q.
Proof.
  intros Hzero Htri. revert a.
  induction cs as [|c cs IH]; intros a Hh Hl; [discriminate|].
  injection Hh as ->.
  destruct cs as [|c' cs].
  - injection Hl as ->. simpl. apply Hzero.
  - change (last (a :: c' :: cs)) with (last (c' :: cs)) in Hl.
    specialize (IH c' eq_refl Hl). cbn [segment_sum].
    cbn [segment_sum] in IH. pose proof (Htri a c' b). lra.
Qed.


(** One more coordinate never makes the distance of a route smaller,
    when the distance between two coordinates is never negative. *)
Theorem total_distance_append (route_coords : list Coordinate) (b c : Coordinate) :
  (forall x y, 0 <= geo_distance_km x y)%Q ->
  (total (route_coords ++ [b]) <= total ((route_coords ++ [b]) ++ [c]))%Q.
Proof.
  intros Hpos. rewrite !total_distance_is_segment_sum, segment_sum_snoc.
  specialize (Hpos b c). lra.
Qed.

(** A route is never shorter than the direct distance between its two
    ends, when the metric obeys the triangle inequality. *)
Theorem total_distance_at_least_direct (route_coords : list Coordinate)
    (a b : Coordinate) :
  (forall x, geo_distance_km x x <= 0)%Q ->
  (forall x y z, geo_distance_km x z <= geo_distance_km x y + geo_distance_km y z)%Q ->
  head route_coords = Some a -> last route_coords = Some b ->
  (geo_distance_km a b <= total route_coords)%Q.
Proof.
  intros Hzero Htri Hh Hl. rewrite total_distance_is_segment_sum.
  now apply segment_sum_direct.
Qed.

End DistanceLoop.


Lemma flat_km_self (a : Coordinate) : (flat_km a a <= 0)%Q.
Proof.
  unfold flat_km.
  assert (E : forall x : Q, (Qabs (x - x) == 0)%Q).
  { intros x. assert (H : (x - x == 0)%Q) by ring. rewrite H. reflexivity. }
  rewrite !E. lra.
Qed.

Lemma flat_km_triangle (a b c : Coordinate) :
  (flat_km a c <= flat_km a b + flat_km b c)%Q.
Proof.
  unfold flat_km.
  assert (T : forall x y z : Q, (Qabs (x - z) <= Qabs (x - y) + Qabs (y - z))%Q).
  { intros x y z. assert (H : (x - z == (x - y) + (y - z))%Q) by ring.
    rewrite H. apply Qabs_triangle. }
  pose proof (T a.1 b.1 c.1). pose proof (T a.2 b.2 c.2). lra.
Qed.


Lemma total_distance_append_witness :
  (forall x y, 0 <= flat_km x y)%Q /\
  (total_distance_of flat_km [(0, 0); (0, 0.01)]%Q <=
   total_distance_of flat_km [(0, 0); (0, 0.01); (0, 0.02)]%Q)%Q.
Proof.
  split; [exact flat_km_nonneg|].
  apply (total_distance_append flat_km [(0, 0)%Q] (0, 0.01)%Q (0, 0.02)%Q
           flat_km_nonneg).
Defined.

Lemma total_distance_at_least_direct_witness :
  (forall x, flat_km x x <= 0)%Q /\
  (forall x y z, flat_km x z <= flat_km x y + flat_km y z)%Q /\
  (flat_km (0, 0)%Q (0, 0.02)%Q <=
   total_distance_of flat_km [(0, 0); (1, 0.01); (0, 0.02)]%Q)%Q.
Proof.
  split; [exact flat_km_self|]. split; [exact flat_km_triangle|].
  apply (total_distance_at_least_direct flat_km
           [(0, 0); (1, 0.01); (0, 0.02)]%Q (0, 0)%Q (0, 0.02)%Q
           flat_km_self flat_km_triangle); reflexivity.
Defined.

(** ** More on [find_path] (lines 61-95) *)

Lemma py_round_2_bounds (x : Q) :
  (x - (1 # 200) <= py_round_ndigits x 2 <= x + (1 # 200))%Q.
Proof.
  unfold py_round_ndigits. rewrite Qred_correct.
  change (inject_Z (10 ^ Z.of_nat 2)) with 100%Q.
  pose proof (py_round_lower (x * 100)) as Hl.
  pose proof (py_round_upper (x * 100)) as Hu.
  set (r := inject_Z (py_round (x * 100))) in *.
  assert (E : (r / 100 == r * (1 # 100))%Q) by (unfold Qdiv; reflexivity).
  rewrite E. split; lra.
Qed.

Lemma path_nodes_in_graph (G : Graph) (es : list Edge) (u t : Z) :
  wf_graph G -> u ∈ dom (nodes G) -> is_path G u es t ->
  forall n, n ∈ path_nodes u es -> n ∈ dom (nodes G).
Proof.
  intros Hwf. revert u. induction es as [|e es IH]; intros u Hu Hp n Hn.
  - apply list_elem_of_singleton in Hn as ->. exact Hu.
  - destruct Hp as (He & Heu & Hp).
    unfold path_nodes in Hn. cbn [map] in Hn.
    apply elem_of_cons in Hn as [-> | Hn]; [exact Hu|].
    apply (IH (edge_v e)); auto. apply (Hwf e He).
Qed.

Lemma node_coordinates_total (G : Graph) (route : list Z) :
  (forall n, n ∈ route -> n ∈ dom (nodes G)) ->
  exists cs, node_coordinates G route = Ok cs.
Proof.
  induction route as [|n route IH]; intros Hin; simpl; [eauto|].
  destruct (proj1 (elem_of_dom _ _) (Hin n (list_elem_of_here _ _))) as [d Hd].
  rewrite Hd. simpl.
  destruct IH as [cs Hcs].
  { intros m Hm. apply Hin. now apply list_elem_of_further. }
  rewrite Hcs. simpl. eauto.
Qed.

Lemma Forall2_head_last {A B} (P : A -> B -> Prop) (l : list A) (k : list B) :
  Forall2 P l k ->
  (forall a, head l = Some a -> exists b, head k = Some b /\ P a b) /\
  (forall a, last l = Some a -> exists b, last k = Some b /\ P a b).
Proof.
  induction 1 as [|x y l k Hxy Hf [_ IHl]]; split; intros a Ha; try discriminate.
  - injection Ha as <-. eauto.
  - destruct l as [|x' l].
    + apply Forall2_nil_inv_l in Hf as ->. injection Ha as <-. eauto.
    + destruct k as [|y' k]; [inversion Hf|].
      change (last (x :: x' :: l)) with (last (x' :: l)) in Ha.
      change (last (y :: y' :: k)) with (last (y' :: k)). auto.
Qed.

Section FindPathMore.

Variable great_circle : Coordinate -> Coordinate -> Q.
Variable geo_distance_km : Coordinate -> Coordinate -> Q.

Local Abbreviation find := (find_path great_circle geo_distance_km).
Local Abbreviation snap := (nearest_nodes great_circle).

Lemma nearest_in_graph (G : Graph) (X Y : Q) (n : Z) :
  snap G X Y = Ok n -> n ∈ dom (nodes G).
Proof.
  intros H. destruct (nearest_nodes_found _ _ _ _ _ H) as (d & Hd & _).
  apply elem_of_dom. eauto.
Qed.

(** The search and the coordinate lookup go through whenever the two
    snapped nodes are joined. *)
Lemma route_coordinates_exist (G : Graph) (s g : Z) (es : list Edge) :
  wf_graph G -> s ∈ dom (nodes G) -> g ∈ dom (nodes G) ->
  is_path G s es g ->
  has_path G s g = Ok true /\
  exists p cs, astar_path G s g None edge_length = Ok p /\
               node_coordinates G p = Ok cs.
Proof.
  intros Hwf Hs Hg Hes. split.
  - destruct (has_path_total G s g Hwf Hs Hg) as [[|] Hb]; [exact Hb|].
    destruct (has_path_false G s g Hwf Hb es Hes).
  - destruct (astar_path_total G s g es Hwf Hs Hg Hes) as [p Hp].
    pose proof (astar_path_spec G s g Hwf) as Hspec. rewrite Hp in Hspec.
    destruct Hspec as (es' & Hes' & -> & _).
    destruct (node_coordinates_total G (path_nodes s es')) as [cs Hcs].
    { now apply (path_nodes_in_graph G es' s g). }
    eauto.
Qed.


(** The travel mode changes the time estimate only: two successful
    calls that differ in the mode return the same route and distance,
    and the mode with the higher speed never gets the longer time. *)
Theorem find_path_mode_changes_time_only (G : Graph)
    (start_coords goal_coords : Coordinate) (mode1 mode2 : string)
    (route1 route2 : list Coordinate) (d1 d2 : Q) (t1 t2 : Z) :
  (forall a b, 0 <= geo_distance_km a b)%Q ->
  find G start_coords goal_coords mode1 = Ok (Found route1 d1 t1) ->
  find G start_coords goal_coords mode2 = Ok (Found route2 d2 t2) ->
  route1 = route2 /\ d1 = d2 /\
  exists speed1 speed2,
    speeds !! mode1 = Some speed1 /\ speeds !! mode2 = Some speed2 /\
    (speed1 <= speed2 -> t2 <= t1).
Proof.
  intros Hpos H1 H2.
  destruct (find_path_found _ _ _ _ _ _ _ _ _ H1)
    as (s & g & p & v1 & Hs & Hg & _ & Ha & Hc & Hv1 & -> & ->).
  destruct (find_path_found _ _ _ _ _ _ _ _ _ H2)
    as (s' & g' & p' & v2 & Hs' & Hg' & _ & Ha' & Hc' & Hv2 & -> & ->).
  rewrite Hs in Hs'. injection Hs' as <-.
  rewrite Hg in Hg'. injection Hg' as <-.
  rewrite Ha in Ha'. injection Ha' as <-.
  rewrite Hc in Hc'. injection Hc' as <-.
  split; [reflexivity|]. split; [reflexivity|].
  exists v1, v2. split; [exact Hv1|]. split; [exact Hv2|].
  intros Hle. apply py_round_mono.
  pose proof (total_distance_is_segment_sum geo_distance_km route1) as E.
  pose proof (segment_sum_nonneg geo_distance_km route1 Hpos) as Hsum.
  set (total := total_distance_of geo_distance_km route1) in *.
  assert (Hv1' : (0 < inject_Z v1)%Q).
  { change 0%Q with (inject_Z 0). rewrite <- Zlt_Qlt.
    apply speeds_lookup in Hv1. lia. }
  assert (Hv12 : (inject_Z v1 <= inject_Z v2)%Q) by now rewrite <- Zle_Qle.
  assert (Ht : (0 <= total)%Q) by lra.
  apply Qmult_le_compat_r; [|lra].
  apply Qle_shift_div_l; [lra|].
  assert (Hv2' : (0 < inject_Z v2)%Q) by lra.
  assert (Hq : (total / inject_Z v2 * inject_Z v2 == total)%Q).
  { field. lra. }
  assert (Hq2 : (0 <= total / inject_Z v2)%Q).
  { apply Qle_shift_div_l; [exact Hv2' | lra]. }
  set (q := (total / inject_Z v2)%Q) in *.
  assert (Hm : (q * inject_Z v1 <= q * inject_Z v2)%Q).
  { rewrite !(Qmult_comm q). now apply Qmult_le_compat_r. }
  lra.
Qed.

(** A mode outside the speed table (line 82) never yields a route: the
    lookup of line 85 raises KeyError when the snapped nodes are joined,
    and the failure result comes back when they are not. *)
Theorem find_path_unknown_mode (G : Graph) (start_coords goal_coords : Coordinate)
    (mode : string) (start_node goal_node : Z) :
  wf_graph G ->
  snap G start_coords.2 start_coords.1 = Ok start_node ->
  snap G goal_coords.2 goal_coords.1 = Ok goal_node ->
  speeds !! mode = None ->
  ((exists es, is_path G start_node es goal_node) ->
   find G start_coords goal_coords mode = Raise KeyError) /\
  ((~ exists es, is_path G start_node es goal_node) ->
   find G start_coords goal_coords mode =
     Ok (NotFound "No path found between these points.")).
Proof.
  intros Hwf Hs Hg Hmode.
  pose proof (nearest_in_graph _ _ _ _ Hs) as Hsd.
  pose proof (nearest_in_graph _ _ _ _ Hg) as Hgd.
  unfold find_path. rewrite Hs. simpl. rewrite Hg. simpl. split.
  - intros [es Hes].
    destruct (route_coordinates_exist G _ _ es Hwf Hsd Hgd Hes)
      as (Hh & p & cs & Hp & Hcs).
    rewrite Hh. simpl. rewrite Hp. simpl. rewrite Hcs. simpl.
    rewrite Hmode. reflexivity.
  - intros Hno.
    destruct (has_path_total G _ _ Hwf Hsd Hgd) as [[|] Hb].
    + destruct Hno. now apply (has_path_true G _ _ Hwf).
    + rewrite Hb. reflexivity.
Qed.

(** On a well-formed graph with at least one node and for a mode of the
    speed table, [find_path] raises nothing: it returns a dictionary, and
    that reports success exactly when the snapped nodes are joined. *)
Theorem find_path_returns (G : Graph) (start_coords goal_coords : Coordinate)
    (mode : string) :
  wf_graph G -> nodes G <> ∅ -> is_Some (speeds !! mode) ->
  exists start_node goal_node r,
    snap G start_coords.2 start_coords.1 = Ok start_node /\
    snap G goal_coords.2 goal_coords.1 = Ok goal_node /\
    find G start_coords goal_coords mode = Ok r /\
    (success r = true <-> exists es, is_path G start_node es goal_node).
Proof.
  intros Hwf Hne [speed Hspeed].
  destruct (nearest_nodes_total great_circle G start_coords.2 start_coords.1 Hne)
    as [s Hs].
  destruct (nearest_nodes_total great_circle G goal_coords.2 goal_coords.1 Hne)
    as [g Hg].
  pose proof (nearest_in_graph _ _ _ _ Hs) as Hsd.
  pose proof (nearest_in_graph _ _ _ _ Hg) as Hgd.
  exists s, g. unfold find_path. rewrite Hs. simpl. rewrite Hg. simpl.
  destruct (has_path_total G _ _ Hwf Hsd Hgd) as [[|] Hb]; rewrite Hb; simpl.
  - destruct (has_path_true G _ _ Hwf Hb) as [es Hes].
    destruct (route_coordinates_exist G _ _ es Hwf Hsd Hgd Hes)
      as (_ & p & cs & Hp & Hcs).
    rewrite Hp. simpl. rewrite Hcs. simpl. rewrite Hspeed. simpl.
    eexists. repeat split; eauto.
  - eexists. repeat split; [discriminate|].
    intros [es Hes]. destruct (has_path_false G _ _ Hwf Hb es Hes).
Qed.

(** The route of a successful result follows streets of the graph: it is
    the coordinates of the nodes along an edge sequence from the snapped
    start node to the snapped goal node, so it begins at the coordinate
    of the one and ends at the coordinate of the other. *)
Theorem find_path_route_follows_edges (G : Graph)
    (start_coords goal_coords : Coordinate) (mode : string)
    (route : list Coordinate) (d : Q) (t : Z) :
  wf_graph G ->
  find G start_coords goal_coords mode = Ok (Found route d t) ->
  exists start_node goal_node ds dg es,
    snap G start_coords.2 start_coords.1 = Ok start_node /\
    snap G goal_coords.2 goal_coords.1 = Ok goal_node /\
    nodes G !! start_node = Some ds /\ nodes G !! goal_node = Some dg /\
    is_path G start_node es goal_node /\
    Forall2 (fun node c => exists nd, nodes G !! node = Some nd /\
                                      c = coordinate_of nd)
            (path_nodes start_node es) route /\
    head route = Some (coordinate_of ds) /\
    last route = Some (coordinate_of dg).
Proof.
  intros Hwf H.
  destruct (find_path_found _ _ _ _ _ _ _ _ _ H)
    as (s & g & p & speed & Hs & Hg & _ & Ha & Hc & _).
  pose proof (astar_path_spec G s g Hwf) as Hspec. rewrite Ha in Hspec.
  destruct Hspec as (es & Hes & -> & _).
  pose proof (node_coordinates_spec _ _ _ Hc) as Hf.
  destruct (Forall2_head_last _ _ _ Hf) as [Hh Hl].
  destruct (Hh s eq_refl) as (c1 & Hc1 & ds & Hds & ->).
  destruct (Hl g (path_nodes_last G es s g Hes)) as (c2 & Hc2 & dg & Hdg & ->).
  exists s, g, ds, dg, es. repeat split; auto.
Qed.

End FindPathMore.

Lemma sample_graph_nonempty : nodes sample_graph <> ∅.
Proof.
  intros H. apply (f_equal (fun m => m !! 1)) in H. vm_compute in H.
  discriminate H.
Qed.


Lemma find_path_mode_changes_time_only_witness :
  let route := [(0, 0); (0, 0.01); (0, 0.02)]%Q in
  (forall a b, 0 <= flat_km a b)%Q /\
  find_path flat_km flat_km sample_graph (0, 0)%Q (0, 0.02)%Q "walk" =
    Ok (Found route 2 24) /\
  find_path flat_km flat_km sample_graph (0, 0)%Q (0, 0.02)%Q "car" =
    Ok (Found route 2 2) /\
  route = route /\ (2 : Q) = 2%Q /\ 2 <= 24.
Proof.
  intros route. split; [exact flat_km_nonneg|].
  split; [vm_compute; reflexivity|]. split; [vm_compute; reflexivity|].
  destruct (find_path_mode_changes_time_only flat_km flat_km sample_graph
              (0, 0)%Q (0, 0.02)%Q "walk" "car" route route 2 2 24 2
              flat_km_nonneg)
    as (Hr & Hd & v1 & v2 & Hv1 & Hv2 & Ht).
  - vm_compute. reflexivity.
  - vm_compute. reflexivity.
  - split; [exact Hr|]. split; [exact Hd|]. apply Ht.
    vm_compute in Hv1. vm_compute in Hv2.
    injection Hv1 as <-. injection Hv2 as <-. lia.
Defined.

Lemma find_path_unknown_mode_witness :
  wf_graph sample_graph /\
  nearest_nodes flat_km sample_graph 0 0 = Ok 1 /\
  nearest_nodes flat_km sample_graph 0.02 0 = Ok 3 /\
  speeds !! "boat"%string = None /\
  (exists es, is_path sample_graph 1 es 3) /\
  find_path flat_km flat_km sample_graph (0, 0)%Q (0, 0.02)%Q "boat" = Raise KeyError.
Proof.
  assert (Hes : exists es, is_path sample_graph 1 es 3).
  { exists [ {| edge_u := 1; edge_v := 3; edge_length := 2500 |} ].
    simpl. repeat split. unfold sample_graph. cbn [edges].
    do 4 apply list_elem_of_further. apply list_elem_of_here. }
  split; [exact sample_graph_wf|].
  split; [vm_compute; reflexivity|]. split; [vm_compute; reflexivity|].
  split; [vm_compute; reflexivity|]. split; [exact Hes|].
  apply (find_path_unknown_mode flat_km flat_km sample_graph
           (0, 0)%Q (0, 0.02)%Q "boat" 1 3 sample_graph_wf);
    try (vm_compute; reflexivity).
  exact Hes.
Defined.

Lemma find_path_returns_witness :
  wf_graph sample_graph /\ nodes sample_graph <> ∅ /\
  is_Some (speeds !! "bike"%string) /\
  exists r, find_path flat_km flat_km sample_graph (0, 0)%Q (5, 5)%Q "bike" = Ok r.
Proof.
  split; [exact sample_graph_wf|]. split; [exact sample_graph_nonempty|].
  assert (Hm : is_Some (speeds !! "bike"%string)).
  { exists 15. vm_compute. reflexivity. }
  split; [exact Hm|].
  destruct (find_path_returns flat_km flat_km sample_graph (0, 0)%Q (5, 5)%Q
              "bike" sample_graph_wf sample_graph_nonempty Hm)
    as (s & g & r & _ & _ & Hr & _).
  eauto.
Defined.

Lemma find_path_route_follows_edges_witness :
  let route := [(0, 0); (0, 0.01); (0, 0.02)]%Q in
  wf_graph sample_graph /\
  find_path flat_km flat_km sample_graph (0, 0)%Q (0, 0.02)%Q "walk" =
    Ok (Found route 2 24) /\
  exists start_node goal_node es,
    is_path sample_graph start_node es goal_node /\
    length route = S (length es).
Proof.
  intros route. split; [exact sample_graph_wf|].
  split; [vm_compute; reflexivity|].
  destruct (find_path_route_follows_edges flat_km flat_km sample_graph
              (0, 0)%Q (0, 0.02)%Q "walk" route 2 24 sample_graph_wf)
    as (s & g & ds & dg & es & _ & _ & _ & _ & Hes & Hf & _).
  - vm_compute. reflexivity.
  - exists s, g, es. split; [exact Hes|].
    apply Forall2_length in Hf.
    transitivity (length (path_nodes s es)); [symmetry; exact Hf|].
    unfold path_nodes. cbn [length]. now rewrite length_map.
Defined.

(** ** More on the traffic block (lines 232-246) *)

Lemma traffic_factor_bounds (time_minutes current_hour : Z) :
  (1 <= traffic_factor (traffic_adjust time_minutes current_hour) <= 3 # 2)%Q.
Proof.
  rewrite traffic_adjust_factor.
  destruct (py_in current_hour [7; 8; 9; 16; 17; 18]);
    [|destruct (py_in current_hour [10; 11; 14; 15; 19; 20])];
    split; unfold Qle; simpl; lia.
Qed.

Lemma inject_Z_nonneg (n : Z) : 0 <= n -> (0 <= inject_Z n)%Q.
Proof. intros H. change 0%Q with (inject_Z 0). now rewrite <- Zle_Qle. Qed.

Lemma Zle_of_Qle_half (a : Z) (x : Q) :
  (inject_Z a <= x + (1 # 2))%Q -> (2 * inject_Z a <= 2 * x + 1)%Q.
Proof. intros H. lra. Qed.

(** Traffic adds at most half of the base time (and the rounding): twice
    the adjusted time is at most three times the base time plus one. *)
Theorem traffic_adds_at_most_half (time_minutes current_hour : Z) :
  0 <= time_minutes ->
  2 * adjusted_time (traffic_adjust time_minutes current_hour)
    <= 3 * time_minutes + 1.
Proof.
  intros Hpos. rewrite traffic_adjust_time.
  pose proof (traffic_factor_bounds time_minutes current_hour) as [_ Hf].
  pose proof (inject_Z_nonneg _ Hpos) as Ht.
  set (f := traffic_factor (traffic_adjust time_minutes current_hour)) in *.
  pose proof (py_round_lower (inject_Z time_minutes * f)) as Hr.
  set (r := py_round (inject_Z time_minutes * f)) in *.
  assert (H : (inject_Z (2 * r) <= inject_Z (3 * time_minutes + 1))%Q).
  { rewrite inject_Z_plus, !inject_Z_mult.
    change (inject_Z 2) with 2%Q. change (inject_Z 3) with 3%Q.
    change (inject_Z 1) with 1%Q. nra. }
  rewrite Zle_Qle. exact H.
Qed.

Lemma traffic_adds_at_most_half_witness :
  0 <= 101 /\ 2 * adjusted_time (traffic_adjust 101 8) <= 3 * 101 + 1.
Proof.
  split; [lia|]. apply (traffic_adds_at_most_half 101 8). lia.
Defined.

(** In the hours of light traffic the adjusted time is the base time;
    in every other hour a base time of three minutes or more grows by at
    least one minute. *)
Theorem traffic_changes_time_outside_light_hours (time_minutes current_hour : Z) :
  3 <= time_minutes ->
  (adjusted_time (traffic_adjust time_minutes current_hour) = time_minutes <->
   (current_hour ∉ [7; 8; 9; 16; 17; 18]) /\
   (current_hour ∉ [10; 11; 14; 15; 19; 20])) /\
  time_minutes <= adjusted_time (traffic_adjust time_minutes current_hour).
Proof.
  intros Hpos. rewrite traffic_adjust_time, traffic_adjust_factor.
  assert (Ht : (3 <= inject_Z time_minutes)%Q).
  { change 3%Q with (inject_Z 3). now rewrite <- Zle_Qle. }
  assert (Hgrow : forall f : Q, (6 # 5 <= f)%Q ->
            time_minutes + 1 <= py_round (inject_Z time_minutes * f)).
  { intros f Hf.
    pose proof (py_round_upper (inject_Z time_minutes * f)) as Hu.
    assert (Hlt : (inject_Z time_minutes < inject_Z (py_round (inject_Z time_minutes * f)))%Q)
      by nra.
    rewrite <- Zlt_Qlt in Hlt. lia. }
  destruct (py_in current_hour [7; 8; 9; 16; 17; 18]) eqn:E1.
  - apply py_in_spec in E1.
    assert (H := Hgrow 1.5%Q ltac:(unfold Qle; simpl; lia)).
    split; [|lia]. split; [lia | tauto].
  - assert (N1 : current_hour ∉ [7; 8; 9; 16; 17; 18]).
    { intros H. apply py_in_spec in H. congruence. }
    destruct (py_in current_hour [10; 11; 14; 15; 19; 20]) eqn:E2.
    + apply py_in_spec in E2.
      assert (H := Hgrow 1.2%Q ltac:(unfold Qle; simpl; lia)).
      split; [|lia]. split; [lia | tauto].
    + assert (N2 : current_hour ∉ [10; 11; 14; 15; 19; 20]).
      { intros H. apply py_in_spec in H. congruence. }
      assert (E : py_round (inject_Z time_minutes * 1.0) = time_minutes).
      { rewrite (py_round_comp _ (inject_Z time_minutes)).
        - apply py_round_inject_Z.
        - assert (H1 : (1.0 == 1)%Q) by reflexivity. rewrite H1. ring. }
      rewrite E. split; [tauto | lia].
Qed.

Lemma traffic_changes_time_outside_light_hours_witness :
  3 <= 10 /\ 10 <= adjusted_time (traffic_adjust 10 11).
Proof.
  split; [lia|].
  apply (traffic_changes_time_outside_light_hours 10 11). lia.
Defined.

(** A longer base time never gets the shorter adjusted time, within the
    same hour. *)
Theorem traffic_adjust_monotone (t1 t2 current_hour : Z) :
  0 <= t1 <= t2 ->
  adjusted_time (traffic_adjust t1 current_hour) <=
  adjusted_time (traffic_adjust t2 current_hour).
Proof.
  intros [H0 H12]. rewrite !traffic_adjust_time, !traffic_adjust_factor.
  apply py_round_mono.
  assert (H : (inject_Z t1 <= inject_Z t2)%Q) by now rewrite <- Zle_Qle.
  destruct (py_in current_hour [7; 8; 9; 16; 17; 18]);
    [|destruct (py_in current_hour [10; 11; 14; 15; 19; 20])];
    apply Qmult_le_compat_r; try exact H; unfold Qle; simpl; lia.
Qed.

Lemma traffic_adjust_monotone_witness :
  0 <= 3 <= 7 /\
  adjusted_time (traffic_adjust 3 8) <= adjusted_time (traffic_adjust 7 8).
Proof.
  split; [lia|]. apply (traffic_adjust_monotone 3 7 8). lia.
Defined.

(** ** The fuel estimate (lines 256-261) *)

(** A fuel estimate is shown for car mode on a successful result only;
    it is within half a hundredth of a litre of 8 percent of the
    reported distance, and not negative when that distance is not. *)
Theorem fuel_consumption_shown (r : find_path_dict) (mode : string) (liters : Q) :
  fuel_consumption r mode = Some liters ->
  mode = "car"%string /\
  exists route distance time_minutes,
    r = Found route distance time_minutes /\
    (distance * 0.08 - (1 # 200) <= liters <= distance * 0.08 + (1 # 200))%Q /\
    ((0 <= distance)%Q -> (0 <= liters)%Q).
Proof.
  unfold fuel_consumption. destruct r as [route distance t | msg]; [|discriminate].
  destruct (decide (mode = "car"%string)) as [-> | Hne]; [|discriminate].
  intros [= <-]. split; [reflexivity|].
  exists route, distance, t. split; [reflexivity|].
  split; [apply py_round_2_bounds|].
  intros Hd. apply py_round_ndigits_nonneg.
  apply Qmult_le_0_compat; [exact Hd|]. unfold Qle. simpl. lia.
Qed.

Lemma fuel_consumption_shown_witness :
  fuel_consumption (Found [(0, 0); (0, 0.00186)]%Q 0.19 0) "car" =
    Some (Qred 0.02) /\
  (0.19 * 0.08 - (1 # 200) <= Qred 0.02 <= 0.19 * 0.08 + (1 # 200))%Q.
Proof.
  split; [vm_compute; reflexivity|].
  destruct (fuel_consumption_shown (Found [(0, 0); (0, 0.00186)]%Q 0.19 0)
              "car" (Qred 0.02)) as (_ & route & d & t & Hr & Hb & _).
  - vm_compute. reflexivity.
  - injection Hr as _ <- _. exact Hb.
Defined.

(** ** Maps *)



(** ** The page *)

Lemma append_prefix_inj (p a b : string) :
  String.append p a = String.append p b -> a = b.
Proof.
  induction p as [|c p IH]; simpl; [auto|]. intros [= H]. auto.
Qed.

Section PageProofs.

Variable geocode : string -> geocode_outcome.
Variable load_graph : string -> string -> load_outcome.
Variable great_circle : Coordinate -> Coordinate -> Q.
Variable geo_distance_km : Coordinate -> Coordinate -> Q.

Local Abbreviation search := (search_location geocode).
Local Abbreviation select := (select_coords geocode).
Local Abbreviation the_page := (page geocode load_graph great_circle geo_distance_km).
Local Abbreviation find := (find_path great_circle geo_distance_km).

(** [search_location] returns a location exactly for a query that is not
    empty and that the geocoder locates, with the address and the
    coordinates of the geocoder; it shows an error exactly when the
    geocoder raises on a query that is not empty, and an empty query
    never reaches the geocoder's answer. *)
Theorem search_location_spec (query : string) :
  (forall l, (search_location geocode query).1 = Some l <->
     query <> ""%string /\ geocode query = Located (address l) (lat l) (lon l)) /\
  (forall e, (search_location geocode query).2 = [st_error (String.append "Error searching for location: " e)] <->
     query <> ""%string /\ geocode query = GeocodeRaised e) /\
  ((search_location geocode query).2 = [] <->
     query = ""%string \/ forall e, geocode query <> GeocodeRaised e).
Proof.
  unfold search_location.
  destruct (decide (query = ""%string)) as [-> | Hq]; cbn [fst snd].
  - split; [|split].
    + intros l. split; [discriminate | intros [H _]; now destruct H].
    + intros e. split; [discriminate | intros [H _]; now destruct H].
    + split; auto.
  - destruct (geocode query) as [a la lo | | e0]; cbn [fst snd];
      (split; [|split]).
    + intros [a' la' lo']. cbn [address lat lon]. split.
      * intros [= <- <- <-]. auto.
      * intros [_ [= <- <- <-]]. reflexivity.
    + intros e. split; [discriminate | intros [_ H]; discriminate H].
    + split; [intros _; right; discriminate | reflexivity].
    + intros l. split; [discriminate | intros [_ H]; discriminate H].
    + intros e. split; [discriminate | intros [_ H]; discriminate H].
    + split; [intros _; right; discriminate | reflexivity].
    + intros l. split; [discriminate | intros [_ H]; discriminate H].
    + intros e. split.
      * intros [= H]. apply append_prefix_inj in H. subst. auto.
      * intros [_ [= ->]]. reflexivity.
    + split; [discriminate|]. intros [H | H]; [contradiction|].
      now destruct (H e0).
Qed.

Lemma select_coords_cases (method query : string) (la lo : Q) :
  ((select method query la lo).1 = Unbound /\ search_empty method query) \/
  ((select method query la lo).1 = Bound None /\ search_failed geocode method query) \/
  (exists c, (select method query la lo).1 = Bound (Some c) /\
             point_given geocode method query la lo c).
Proof.
  unfold select_coords, search_empty, search_failed, point_given.
  destruct (decide (method = "Search by name"%string)) as [Hm | Hm].
  - destruct (decide (query = ""%string)) as [Hq | Hq]; [left; auto|].
    unfold search_location. rewrite decide_False by exact Hq.
    destruct (geocode query) as [a la' lo' | | e] eqn:E; cbn [fst snd].
    + right. right. exists (la', lo'). split; [reflexivity|].
      right. split; [exact Hm|]. split; [exact Hq|]. exists a. reflexivity.
    + right. left. auto.
    + right. left. split; [reflexivity|]. split; [exact Hm|]. split; [exact Hq|].
      right. eauto.
  - right. right. exists (la, lo). auto.
Qed.

Lemma point_given_not_empty (method query : string) (la lo : Q) (c : Coordinate) :
  point_given geocode method query la lo c -> ~ search_empty method query.
Proof. intros [[H _] | (_ & H & _)] [H1 H2]; contradiction. Qed.

Lemma search_failed_not_empty (method query : string) :
  search_failed geocode method query -> ~ search_empty method query.
Proof. intros (_ & H & _) [_ H2]. contradiction. Qed.

Lemma search_empty_select (method query : string) (la lo : Q) :
  search_empty method query -> (select method query la lo).1 = Unbound.
Proof.
  intros [-> ->]. unfold select_coords. reflexivity.
Qed.

Lemma search_failed_select (method query : string) (la lo : Q) :
  search_failed geocode method query -> (select method query la lo).1 = Bound None.
Proof.
  intros (-> & Hq & H). unfold select_coords, search_location.
  rewrite decide_True by reflexivity. rewrite !decide_False by exact Hq.
  destruct H as [-> | [e ->]]; reflexivity.
Qed.

Lemma point_given_select (method query : string) (la lo : Q) (c : Coordinate) :
  point_given geocode method query la lo c ->
  (select method query la lo).1 = Bound (Some c).
Proof.
  intros [[Hm ->] | (-> & Hq & a & H)]; unfold select_coords, search_location.
  - now rewrite decide_False by exact Hm.
  - rewrite decide_True by reflexivity. rewrite !decide_False by exact Hq.
    rewrite H. destruct c. reflexivity.
Qed.


Lemma page_eq (w : World) (i : widgets) :
  the_page w i =
    let start_coords := select (start_method i) (start_query i) (start_lat i) (start_lon i) in
    let end_coords := select (end_method i) (end_query i) (end_lat i) (end_lon i) in
    let main := main_area load_graph great_circle geo_distance_km w i
                  start_coords.1 end_coords.1 in
    (start_coords.2 ++ end_coords.2 ++ main.1, main.2).
Proof.
  unfold page.
  destruct (select (start_method i) (start_query i) (start_lat i) (start_lon i)).
  destruct (select (end_method i) (end_query i) (end_lat i) (end_lon i)).
  cbn [fst snd].
  destruct (main_area load_graph great_circle geo_distance_km w i b b0).
  reflexivity.
Qed.

Lemma find_path_not_found_message (G : Graph) (s e : Coordinate) (mode msg : string) :
  find G s e mode = Ok (NotFound msg) ->
  msg = "No path found between these points."%string.
Proof.
  unfold find_path.
  destruct (nearest_nodes great_circle G s.2 s.1) as [a|]; simpl; [|discriminate].
  destruct (nearest_nodes great_circle G e.2 e.1) as [b|]; simpl; [|discriminate].
  destruct (has_path G a b) as [[|]|]; simpl; try discriminate.
  - destruct (astar_path G a b None edge_length) as [p|]; simpl; [|discriminate].
    destruct (node_coordinates G p) as [cs|]; simpl; [|discriminate].
    destruct (speeds !! mode) as [speed|]; simpl; discriminate.
  - now intros [= <-].
Qed.


Lemma main_area_raises (w : World) (i : widgets)
    (sc ec : binding (option Coordinate)) :
  (main_area load_graph great_circle geo_distance_km w i sc ec).2 =
    if find_path_button i then
      match sc with
      | Unbound => Some (NameError "start_coords")
      | Bound None => None
      | Bound (Some _) =>
          match ec with
          | Unbound => Some (NameError "end_coords")
          | Bound _ => None
          end
      end
    else None.
Proof.
  unfold main_area. destruct (find_path_button i); [|reflexivity].
  destruct sc as [|[s|]]; try reflexivity.
  destruct ec as [|[e|]]; try reflexivity.
  destruct (decide (place i = ""%string)); reflexivity.
Qed.

(** The script raises NameError, and nothing else: for [start_coords]
    exactly when the button is pressed while the start search box is
    chosen and empty, for [end_coords] exactly when the button is pressed,
    the start point is known and the destination search box is chosen and
    empty.  Without the button the page never raises. *)
Theorem page_raises_name_error (w : World) (i : widgets) :
  ((the_page w i).2 = Some (NameError "start_coords") <->
     find_path_button i = true /\
     search_empty (start_method i) (start_query i)) /\
  ((the_page w i).2 = Some (NameError "end_coords") <->
     find_path_button i = true /\
     (exists c, point_given geocode (start_method i) (start_query i)
                  (start_lat i) (start_lon i) c) /\
     search_empty (end_method i) (end_query i)) /\
  (forall e, (the_page w i).2 = Some e ->
     e = NameError "start_coords" \/ e = NameError "end_coords").
Proof.
  rewrite page_eq. cbn [snd]. rewrite main_area_raises.
  destruct (find_path_button i).
  2:{ split; [|split].
      - split; [discriminate | intros [H _]; discriminate H].
      - split; [discriminate | intros [H _]; discriminate H].
      - intros e H. discriminate H. }
  destruct (select_coords_cases (start_method i) (start_query i)
              (start_lat i) (start_lon i))
    as [[Es Hs] | [[Es Hs] | (s & Es & Hs)]]; rewrite Es.
  - split; [|split].
    + split; [auto | reflexivity].
    + split; [discriminate|]. intros (_ & (c & Hc) & _).
      destruct (point_given_not_empty _ _ _ _ _ Hc Hs).
    + intros e [= <-]. auto.
  - split; [|split].
    + split; [discriminate|]. intros [_ H].
      destruct (search_failed_not_empty _ _ Hs H).
    + split; [discriminate|]. intros (_ & (c & Hc) & _).
      apply (point_given_select _ _ (start_lat i) (start_lon i)) in Hc. congruence.
    + intros e H. discriminate H.
  - destruct (select_coords_cases (end_method i) (end_query i)
                (end_lat i) (end_lon i))
      as [[Ee He] | [[Ee He] | (e & Ee & He)]]; rewrite Ee.
    + split; [|split].
      * split; [discriminate|]. intros [_ H].
        destruct (point_given_not_empty _ _ _ _ _ Hs H).
      * split; [eauto | reflexivity].
      * intros e [= <-]. auto.
    + split; [|split].
      * split; [discriminate|]. intros [_ H].
        destruct (point_given_not_empty _ _ _ _ _ Hs H).
      * split; [discriminate|]. intros (_ & _ & H).
        destruct (search_failed_not_empty _ _ He H).
      * intros e0 H. discriminate H.
    + split; [|split].
      * split; [discriminate|]. intros [_ H].
        destruct (point_given_not_empty _ _ _ _ _ Hs H).
      * split; [discriminate|]. intros (_ & _ & H).
        destruct (point_given_not_empty _ _ _ _ _ He H).
      * intros e0 H. discriminate H.
Qed.

Lemma select_events_shape (method query : string) (la lo : Q) (ev : ui_event) :
  ev ∈ (select method query la lo).2 ->
  (exists e, ev = st_error (String.append "Error searching for location: " e)) \/
  (exists a, ev = sidebar_success (String.append "Found: " a)) \/
  ev = sidebar_error "Location not found. Please try a different query.".
Proof.
  unfold select_coords, search_location.
  destruct (decide (method = "Search by name"%string));
    [|intros H; now apply elem_of_nil in H].
  destruct (decide (query = ""%string)); [intros H; now apply elem_of_nil in H|].
  destruct (geocode query); cbn [fst snd app]; intros H;
    repeat (apply elem_of_cons in H as [-> | H]); eauto;
    now apply elem_of_nil in H.
Qed.

(** Pressing the button makes lines 194-288 show nothing and raise
    nothing when the start search failed, when the start point is known
    and the destination search failed, or when both points are known and
    the search area is empty.  The page then holds what the selection of
    the two points showed and no more: the search error of line 48 when
    the geocoder raised, and the found and not-found messages of the
    sidebar. *)
Theorem page_shows_nothing (w : World) (i : widgets) :
  find_path_button i = true ->
  search_failed geocode (start_method i) (start_query i) \/
  ((exists c, point_given geocode (start_method i) (start_query i)
                (start_lat i) (start_lon i) c) /\
   search_failed geocode (end_method i) (end_query i)) \/
  ((exists c, point_given geocode (start_method i) (start_query i)
                (start_lat i) (start_lon i) c) /\
   (exists c, point_given geocode (end_method i) (end_query i)
                (end_lat i) (end_lon i) c) /\
   place i = ""%string) ->
  main_area load_graph great_circle geo_distance_km w i
    (select (start_method i) (start_query i) (start_lat i) (start_lon i)).1
    (select (end_method i) (end_query i) (end_lat i) (end_lon i)).1 = ([], None) /\
  the_page w i =
    ((select (start_method i) (start_query i) (start_lat i) (start_lon i)).2 ++
     (select (end_method i) (end_query i) (end_lat i) (end_lon i)).2,
     None) /\
  forall ev, ev ∈ (the_page w i).1 ->
    (exists e, ev = st_error (String.append "Error searching for location: " e)) \/
    (exists a, ev = sidebar_success (String.append "Found: " a)) \/
    ev = sidebar_error "Location not found. Please try a different query.".
Proof.
  intros Hb H.
  assert (Hmain : main_area load_graph great_circle geo_distance_km w i
            (select (start_method i) (start_query i) (start_lat i) (start_lon i)).1
            (select (end_method i) (end_query i) (end_lat i) (end_lon i)).1 =
            ([], None)).
  { unfold main_area, idle_view. rewrite Hb. cbn [negb].
    destruct H as [Hs | [[[s Hs] He] | ([s Hs] & [e He] & Hp)]].
    - now rewrite (search_failed_select _ _ _ _ Hs).
    - now rewrite (point_given_select _ _ _ _ _ Hs), (search_failed_select _ _ _ _ He).
    - rewrite (point_given_select _ _ _ _ _ Hs), (point_given_select _ _ _ _ _ He).
      now rewrite decide_True by exact Hp. }
  assert (Hpage : the_page w i =
            ((select (start_method i) (start_query i) (start_lat i) (start_lon i)).2 ++
             (select (end_method i) (end_query i) (end_lat i) (end_lon i)).2,
             None)).
  { rewrite page_eq. cbn zeta. rewrite Hmain. cbn [fst snd].
    now rewrite app_nil_r. }
  split; [exact Hmain|]. split; [exact Hpage|].
  intros ev. rewrite Hpage. cbn [fst]. rewrite elem_of_app.
  intros [Hev | Hev]; eapply select_events_shape; exact Hev.
Qed.

(** An exception of [load_graph] or of [find_path] does not leave the
    script: the main area shows the error and the hint, and nothing
    else. *)
Theorem page_reports_exceptions (w : World) (i : widgets) (s e : Coordinate)
    (ex : caught_exception) :
  find_path_button i = true ->
  point_given geocode (start_method i) (start_query i) (start_lat i) (start_lon i) s ->
  point_given geocode (end_method i) (end_query i) (end_lat i) (end_lon i) e ->
  place i <> ""%string ->
  let network_type := if decide (mode i = "car"%string) then "drive"%string
                      else "walk"%string in
  (exists msg, load_graph (place i) network_type = LoadRaised msg /\
               ex = load_exception msg) \/
  (exists G err, load_graph (place i) network_type = Loaded G /\
                 find G s e (mode i) = Raise err /\ ex = engine_exception err) ->
  the_page w i =
    ((select (start_method i) (start_query i) (start_lat i) (start_lon i)).2 ++
     (select (end_method i) (end_query i) (end_lat i) (end_lon i)).2 ++
     [ st_error_occurred ex;
       st_info "Try a different location or check your internet connection." ],
     None).
Proof.
  intros Hb Hs He Hp nt H. subst nt. rewrite page_eq. cbn zeta.
  unfold main_area. rewrite Hb.
  rewrite (point_given_select _ _ _ _ _ Hs), (point_given_select _ _ _ _ _ He).
  rewrite decide_False by exact Hp. cbn [fst snd]. unfold query_view.
  destruct H as [(msg & Hl & ->) | (G & err & Hl & Hf & ->)]; rewrite Hl.
  - reflexivity.
  - rewrite Hf. reflexivity.
Qed.

(** When [find_path] reports that no path exists, the main area shows
    its message, the same text for every query, and a map that holds the
    two markers and no line. *)
Theorem page_no_path (w : World) (i : widgets) (s e : Coordinate)
    (G : Graph) (msg : string) :
  find_path_button i = true ->
  point_given geocode (start_method i) (start_query i) (start_lat i) (start_lon i) s ->
  point_given geocode (end_method i) (end_query i) (end_lat i) (end_lon i) e ->
  place i <> ""%string ->
  load_graph (place i)
    (if decide (mode i = "car"%string) then "drive"%string else "walk"%string) =
    Loaded G ->
  find G s e (mode i) = Ok (NotFound msg) ->
  the_page w i =
    ((select (start_method i) (start_query i) (start_lat i) (start_lon i)).2 ++
     (select (end_method i) (end_query i) (end_lat i) (end_lon i)).2 ++
     [ st_error "No path found between these points.";
       st_subheader "📍 Map";
       folium_static (create_map s e None) 1000 500 ],
     None) /\
  map_children (create_map s e None) =
    [Marker s "Start" "green" "play"; Marker e "Destination" "red" "flag"].
Proof.
  intros Hb Hs He Hp Hl Hf. split; [|reflexivity].
  pose proof (find_path_not_found_message _ _ _ _ _ Hf) as ->.
  rewrite page_eq. cbn zeta. unfold main_area. rewrite Hb.
  rewrite (point_given_select _ _ _ _ _ Hs), (point_given_select _ _ _ _ _ He).
  rewrite decide_False by exact Hp. cbn [fst snd]. unfold query_view.
  rewrite Hl, Hf. reflexivity.
Qed.





End PageProofs.

(** ** The page on the sample data *)

Lemma sample_start_given (area : string) (la lo : Q) (pressed : bool) :
  let i := sample_widgets "A street" area la lo pressed in
  point_given sample_geocode (start_method i) (start_query i)
    (start_lat i) (start_lon i) (0, 0)%Q.
Proof.
  right. split; [reflexivity|]. split; [discriminate|].
  exists "A street, Hanoi"%string. reflexivity.
Qed.

Lemma sample_end_given (query area : string) (la lo : Q) (pressed : bool) :
  let i := sample_widgets query area la lo pressed in
  point_given sample_geocode (end_method i) (end_query i)
    (end_lat i) (end_lon i) (la, lo).
Proof. left. split; [discriminate | reflexivity]. Qed.

Lemma page_shows_nothing_witness :
  let i := sample_widgets "timeout" "Ba Dinh" 0 0.02 true in
  find_path_button i = true /\
  search_failed sample_geocode (start_method i) (start_query i) /\
  page sample_geocode sample_load_graph flat_km flat_km sample_morning i =
    ([ st_error "Error searching for location: Service timed out";
       sidebar_error "Location not found. Please try a different query." ],
     None).
Proof.
  intros i.
  assert (Hf : search_failed sample_geocode (start_method i) (start_query i)).
  { split; [reflexivity|]. split; [discriminate|]. right.
    exists "Service timed out"%string. reflexivity. }
  split; [reflexivity|]. split; [exact Hf|].
  destruct (page_shows_nothing sample_geocode sample_load_graph flat_km flat_km
              sample_morning i eq_refl (or_introl Hf)) as (_ & Hp & _).
  rewrite Hp. reflexivity.
Defined.

Lemma page_reports_exceptions_witness :
  let i := sample_widgets "A street" "nowhere" 0 0.02 true in
  find_path_button i = true /\ place i <> ""%string /\
  sample_load_graph (place i) "drive" = LoadRaised "no such place" /\
  page sample_geocode sample_load_graph flat_km flat_km sample_morning i =
    ([ sidebar_success "Found: A street, Hanoi";
       st_error_occurred (load_exception "no such place");
       st_info "Try a different location or check your internet connection." ],
     None).
Proof.
  intros i. split; [reflexivity|]. split; [discriminate|].
  split; [reflexivity|].
  rewrite (page_reports_exceptions sample_geocode sample_load_graph flat_km
             flat_km sample_morning i (0, 0)%Q (0, 0.02)%Q
             (load_exception "no such place") eq_refl
             (sample_start_given "nowhere" 0 0.02 true)
             (sample_end_given "A street" "nowhere" 0 0.02 true)).
  - reflexivity.
  - discriminate.
  - left. exists "no such place"%string. split; reflexivity.
Defined.

Lemma page_no_path_witness :
  let i := sample_widgets "A street" "Ba Dinh" 5 5 true in
  find_path_button i = true /\ place i <> ""%string /\
  sample_load_graph (place i) "drive" = Loaded sample_graph /\
  find_path flat_km flat_km sample_graph (0, 0)%Q (5, 5)%Q (mode i) =
    Ok (NotFound "No path found between these points.") /\
  page sample_geocode sample_load_graph flat_km flat_km sample_morning i =
    ([ sidebar_success "Found: A street, Hanoi";
       st_error "No path found between these points.";
       st_subheader "📍 Map";
       folium_static (create_map (0, 0)%Q (5, 5)%Q None) 1000 500 ],
     None).
Proof.
  intros i. split; [reflexivity|]. split; [discriminate|].
  split; [reflexivity|]. split; [vm_compute; reflexivity|].
  destruct (page_no_path sample_geocode sample_load_graph flat_km flat_km
              sample_morning i (0, 0)%Q (5, 5)%Q sample_graph
              "No path found between these points." eq_refl
              (sample_start_given "Ba Dinh" 5 5 true)
              (sample_end_given "A street" "Ba Dinh" 5 5 true)) as [Hp _].
  - discriminate.
  - reflexivity.
  - vm_compute. reflexivity.
  - rewrite Hp. reflexivity.
Defined.


(** ** The numbers of [find_path] in doubles (lines 74-91) *)

Section EngineF64Proofs.

Variable great_circle : Coordinate -> Coordinate -> Q.
Variable geo_distance_km : Coordinate -> Coordinate -> spec_float.

Lemma total_distance_f64_from (rest pre : list Coordinate) (a : Coordinate)
    (acc : py_num) :
  fold_left (add_segment_f64 geo_distance_km (pre ++ a :: rest))
    (seq (S (length pre)) (length rest)) acc =
  fold_left py_add (segment_distances geo_distance_km (a :: rest)) acc.
Proof.
  revert pre a acc. induction rest as [|b rest IH]; intros pre a acc.
  - reflexivity.
  - cbn [length seq fold_left segment_distances].
    assert (Hstep : add_segment_f64 geo_distance_km (pre ++ a :: b :: rest) acc
                      (S (length pre)) =
                    py_add acc (py_float (geo_distance_km a b))).
    { unfold add_segment_f64.
      replace (S (length pre) - 1)%nat with (length pre) by lia.
      rewrite list_lookup_middle by reflexivity.
      replace (pre ++ a :: b :: rest) with ((pre ++ [a]) ++ b :: rest)
        by now rewrite <- app_assoc.
      rewrite list_lookup_middle by (rewrite length_app; simpl; lia).
      reflexivity. }
    rewrite Hstep.
    replace (pre ++ a :: b :: rest) with ((pre ++ [a]) ++ b :: rest)
      by now rewrite <- app_assoc.
    replace (S (S (length pre))) with (S (length (pre ++ [a])))
      by (rewrite length_app; simpl; lia).
    apply IH.
Qed.

(** The loop of lines 75-79 adds the distances between consecutive
    coordinates to 0, one after the other in route order. *)
Lemma total_distance_f64_segments (route_coords : list Coordinate) :
  total_distance_f64 geo_distance_km route_coords =
  fold_left py_add (segment_distances geo_distance_km route_coords) (py_int 0).
Proof.
  unfold total_distance_f64. destruct route_coords as [|a rest]; [reflexivity|].
  cbn [length]. replace (S (length rest) - 1)%nat with (length rest) by lia.
  apply (total_distance_f64_from rest [] a).
Qed.

(** What a successful call went through. *)
Lemma find_path_f64_found (G : Graph) (start_coords goal_coords : Coordinate)
    (mode : string) (route : list Coordinate) (d : py_num) (t : Z) :
  find_path_f64 great_circle geo_distance_km G start_coords goal_coords mode =
    Returns (Found_f64 route d t) ->
  exists start_node goal_node p speed time_hours,
    nearest_nodes great_circle G start_coords.2 start_coords.1 = Ok start_node /\
    nearest_nodes great_circle G goal_coords.2 goal_coords.1 = Ok goal_node /\
    has_path G start_node goal_node = Ok true /\
    astar_path G start_node goal_node None edge_length = Ok p /\
    node_coordinates G p = Ok route /\
    speeds !! mode = Some speed /\
    py_truediv (total_distance_f64 geo_distance_km route) (py_int speed) =
      Returns time_hours /\
    d = py_round_to (total_distance_f64 geo_distance_km route) 2 /\
    py_round_int (py_mul time_hours (py_int 60)) = Returns t.
Proof.
  unfold find_path_f64.
  destruct (nearest_nodes great_circle G start_coords.2 start_coords.1)
    as [s|]; simpl; [|discriminate].
  destruct (nearest_nodes great_circle G goal_coords.2 goal_coords.1)
    as [g|]; simpl; [|discriminate].
  destruct (has_path G s g) as [[|]|] eqn:Eh; simpl; try discriminate.
  destruct (astar_path G s g None edge_length) as [p|] eqn:Ea; simpl;
    [|discriminate].
  destruct (node_coordinates G p) as [cs|] eqn:Ec; simpl; [|discriminate].
  destruct (speeds !! mode) as [speed|] eqn:Es; simpl; [|discriminate].
  destruct (py_truediv (total_distance_f64 geo_distance_km cs) (py_int speed))
    as [hours|] eqn:Ed; simpl; [|discriminate].
  destruct (py_round_int (py_mul hours (py_int 60))) as [t'|] eqn:Er; simpl;
    [|discriminate].
  intros [= <- <- <-]. exists s, g, p, speed, hours. repeat split; auto.
Qed.

(** The two evaluations of [find_path] differ in the numbers only: they
    succeed on the same queries, with the same route, and report no path
    on the same queries. *)
Lemma find_path_f64_route (geo_q : Coordinate -> Coordinate -> Q) (G : Graph)
    (start_coords goal_coords : Coordinate) (mode : string)
    (route : list Coordinate) (d : py_num) (t : Z) :
  find_path_f64 great_circle geo_distance_km G start_coords goal_coords mode =
    Returns (Found_f64 route d t) ->
  exists d' t',
    find_path great_circle geo_q G start_coords goal_coords mode =
      Ok (Found route d' t').
Proof.
  intros H.
  destruct (find_path_f64_found _ _ _ _ _ _ _ H)
    as (s & g & p & speed & hours & Hs & Hg & Hh & Ha & Hc & Hspeed & _).
  unfold find_path. rewrite Hs. simpl. rewrite Hg. simpl. rewrite Hh. simpl.
  rewrite Ha. simpl. rewrite Hc. simpl. rewrite Hspeed. simpl. eauto.
Qed.

Lemma find_path_f64_no_path (geo_q : Coordinate -> Coordinate -> Q) (G : Graph)
    (start_coords goal_coords : Coordinate) (mode msg : string) :
  find_path_f64 great_circle geo_distance_km G start_coords goal_coords mode =
    Returns (NotFound_f64 msg) <->
  find_path great_circle geo_q G start_coords goal_coords mode =
    Ok (NotFound msg).
Proof.
  unfold find_path_f64, find_path.
  destruct (nearest_nodes great_circle G start_coords.2 start_coords.1)
    as [s|]; simpl; [|split; discriminate].
  destruct (nearest_nodes great_circle G goal_coords.2 goal_coords.1)
    as [g|]; simpl; [|split; discriminate].
  destruct (has_path G s g) as [[|]|]; simpl; [| |split; discriminate].
  - destruct (astar_path G s g None edge_length) as [p|]; simpl;
      [|split; discriminate].
    destruct (node_coordinates G p) as [cs|]; simpl; [|split; discriminate].
    destruct (speeds !! mode) as [speed|]; simpl; [|split; discriminate].
    destruct (py_truediv (total_distance_f64 geo_distance_km cs) (py_int speed))
      as [hours|]; simpl; [|split; discriminate].
    destruct (py_round_int (py_mul hours (py_int 60))) as [t'|]; simpl;
      split; discriminate.
  - split; intros [= <-]; reflexivity.
Qed.

Lemma py_round_int_float (x : spec_float) (t : Z) :
  py_round_int (py_float x) = Returns t ->
  exists q, b64_to_Q x = Some q /\ t = py_round q.
Proof.
  unfold py_round_int. destruct (b64_to_Q x) as [q|]; [|discriminate].
  intros [= <-]. eauto.
Qed.

(** [round(x, 2)] of a finite double: the double of a number of
    hundredths that is within half a hundredth of [x]. *)
Lemma py_round_to_2_decimal (a d : py_num) (x : spec_float) (q : Q) :
  d = py_round_to a 2 -> a = py_float x -> b64_to_Q x = Some q ->
  exists n : Z,
    (q - (1 # 200) <= inject_Z n / 100 <= q + (1 # 200))%Q /\
    d = py_float (if n =? 0 then S754_zero (b64_sign x) else b64_of_ratio n 100).
Proof.
  intros -> -> Hq. unfold py_round_to. rewrite Hq.
  change (10 ^ Pos.of_nat 2)%positive with 100%positive.
  exists (py_round (q * inject_Z 100)). split; [|reflexivity].
  pose proof (py_round_lower (q * inject_Z 100)) as Hl.
  pose proof (py_round_upper (q * inject_Z 100)) as Hu.
  set (r := inject_Z (py_round (q * inject_Z 100))) in *.
  change (inject_Z 100) with 100%Q in Hl, Hu.
  assert (E : (r / 100 == r * (1 # 100))%Q) by (unfold Qdiv; reflexivity).
  rewrite E. split; lra.
Qed.

(** C4, as the code has it: the total distance is the sum of the
    distances between consecutive route coordinates, added in route
    order; the result carries that sum rounded to 2 decimal places; the
    time estimate is computed from the unrounded sum inside [find_path];
    the fuel estimate of car mode is [round(d * 0.08, 2)] for the rounded
    distance [d] of the result, not for the unrounded sum. *)
Theorem reported_distance_f64 (G : Graph) (start_coords goal_coords : Coordinate)
    (mode : string) (route : list Coordinate) (d : py_num) (t : Z) :
  find_path_f64 great_circle geo_distance_km G start_coords goal_coords mode =
    Returns (Found_f64 route d t) ->
  let total := fold_left py_add (segment_distances geo_distance_km route)
                 (py_int 0) in
  total_distance_f64 geo_distance_km route = total /\
  d = py_round_to total 2 /\
  (forall x q, total = py_float x -> b64_to_Q x = Some q ->
     exists n : Z,
       (q - (1 # 200) <= inject_Z n / 100 <= q + (1 # 200))%Q /\
       d = py_float (if n =? 0 then S754_zero (b64_sign x)
                     else b64_of_ratio n 100)) /\
  (exists speed time_hours,
     speeds !! mode = Some speed /\
     py_truediv total (py_int speed) = Returns time_hours /\
     py_round_int (py_mul time_hours (py_int 60)) = Returns t) /\
  fuel_consumption_f64 (Found_f64 route d t) "car" =
    Some (py_round_to
            (py_mul (py_round_to total 2) (py_float (b64_of_Q 0.08))) 2).
Proof.
  intros H total.
  destruct (find_path_f64_found _ _ _ _ _ _ _ H)
    as (s & g & p & speed & hours & _ & _ & _ & _ & _ & Hspeed & Hdiv & Hd & Ht).
  pose proof (total_distance_f64_segments route) as E. fold total in E.
  rewrite E in Hdiv, Hd.
  split; [exact E|]. split; [exact Hd|].
  split; [intros x q Hx Hq; exact (py_round_to_2_decimal total d x q Hd Hx Hq)|].
  split; [|rewrite Hd; reflexivity].
  exists speed, hours. auto.
Qed.

(** C5: the base time is the nearest integer, ties to even, of the
    double that [(total distance / speed) * 60] evaluates to, where the
    speed is 50 for car, 5 for walk and 15 for bike. *)
Theorem base_time_f64 (G : Graph) (start_coords goal_coords : Coordinate)
    (mode : string) (route : list Coordinate) (d : py_num) (t : Z) :
  find_path_f64 great_circle geo_distance_km G start_coords goal_coords mode =
    Returns (Found_f64 route d t) ->
  exists speed,
    ((mode = "car"%string /\ speed = 50) \/
     (mode = "walk"%string /\ speed = 5) \/
     (mode = "bike"%string /\ speed = 15)) /\
    let total_distance := total_distance_f64 geo_distance_km route in
    let time_hours := b64_div (py_to_float total_distance) (b64_of_Z speed) in
    let time_minutes := b64_mul time_hours (b64_of_Z 60) in
    exists q, b64_to_Q time_minutes = Some q /\
      t = py_round q /\
      (q - (1 # 2) <= inject_Z t <= q + (1 # 2))%Q.
Proof.
  intros H.
  destruct (find_path_f64_found _ _ _ _ _ _ _ H)
    as (s & g & p & speed & hours & _ & _ & _ & _ & _ & Hspeed & Hdiv & _ & Ht).
  exists speed. split; [now apply speeds_lookup|].
  intros total_distance time_hours time_minutes.
  unfold py_truediv in Hdiv.
  destruct (py_is_zero (py_int speed)); [discriminate Hdiv|].
  injection Hdiv as <-.
  change (py_mul (py_float (b64_div (py_to_float total_distance)
                              (py_to_float (py_int speed)))) (py_int 60))
    with (py_float time_minutes) in Ht.
  destruct (py_round_int_float _ _ Ht) as (q & Hq & ->).
  exists q. split; [exact Hq|]. split; [reflexivity|].
  split; [apply py_round_upper | apply py_round_lower].
Qed.

End EngineF64Proofs.

Lemma reported_distance_f64_witness :
  let route := [(0, 0); (0, 0.05125)]%Q in
  find_path_f64 flat_km flat_km_f64 walk_graph (0, 0)%Q (0, 0.05125)%Q "walk" =
    Returns (Found_f64 route (py_float (b64_of_Q 5.12)) 61) /\
  total_distance_f64 flat_km_f64 route = py_float (b64_of_Q 5.125) /\
  py_float (b64_of_Q 5.12) =
    py_round_to (fold_left py_add (segment_distances flat_km_f64 route) (py_int 0)) 2.
Proof.
  intros route. split; [vm_compute; reflexivity|].
  split; [vm_compute; reflexivity|].
  destruct (reported_distance_f64 flat_km flat_km_f64 walk_graph
              (0, 0)%Q (0, 0.05125)%Q "walk" route (py_float (b64_of_Q 5.12)) 61)
    as (_ & Hd & _).
  - vm_compute. reflexivity.
  - exact Hd.
Defined.

(** C4, as stated, fails for the fuel estimate: on a route of 0.186 km
    the result carries 0.19 km, the fuel shown is
    [round(0.19 * 0.08, 2) = 0.02], while the unrounded distance would
    give [round(0.186 * 0.08, 2) = 0.01]. *)
Lemma fuel_estimate_from_rounded_distance :
  let route := [(0, 0); (0, 0.00186)]%Q in
  let result := Found_f64 route (py_float (b64_of_Q 0.19)) 0 in
  let total := total_distance_f64 flat_km_f64 route in
  find_path_f64 flat_km flat_km_f64 short_graph (0, 0)%Q (0, 0.00186)%Q "car" =
    Returns result /\
  total = py_float (b64_of_Q 0.186) /\
  fuel_consumption_f64 result "car" = Some (py_float (b64_of_Q 0.02)) /\
  py_round_to (py_mul total (py_float (b64_of_Q 0.08))) 2 = py_float (b64_of_Q 0.01) /\
  fuel_consumption_f64 result "car" <>
    Some (py_round_to (py_mul total (py_float (b64_of_Q 0.08))) 2).
Proof.
  intros route result total.
  split; [vm_compute; reflexivity|].
  split; [vm_compute; reflexivity|].
  split; [vm_compute; reflexivity|].
  split; [vm_compute; reflexivity|].
  vm_compute. discriminate.
Qed.

Lemma base_time_f64_witness :
  let route := [(0, 0); (0, 0.05125)]%Q in
  find_path_f64 flat_km flat_km_f64 walk_graph (0, 0)%Q (0, 0.05125)%Q "walk" =
    Returns (Found_f64 route (py_float (b64_of_Q 5.12)) 61) /\
  exists speed q,
    b64_to_Q (b64_mul (b64_div (py_to_float (total_distance_f64 flat_km_f64 route))
                               (b64_of_Z speed)) (b64_of_Z 60)) = Some q /\
    61 = py_round q.
Proof.
  intros route. split; [vm_compute; reflexivity|].
  destruct (base_time_f64 flat_km flat_km_f64 walk_graph
              (0, 0)%Q (0, 0.05125)%Q "walk" route (py_float (b64_of_Q 5.12)) 61)
    as (speed & _ & q & Hq & Ht & _).
  - vm_compute. reflexivity.
  - exists speed, q. split; [exact Hq | exact Ht].
Defined.
